(** * A URL shortener: [shortener.js]

    Shallow embedding of the closure returned by [shortener(alphabet,
    protocol, ids)] and of its five functions [nextid], [getPath],
    [toDigits], [shorten] and [expand].

    Conventions of the embedding.
    - A JavaScript string is a [string] (a sequence of characters); every
      string primitive the program uses ([split], [charAt], [indexOf],
      [length], [+], indexing) works character by character.
    - A JavaScript number is a [number]: an integer-valued double, [NaN] or
      a signed infinity.  The program only ever computes with integers,
      except that an empty alphabet makes it divide by zero.  The sum
      [ids + 1] and the quotient [id / alphabetLength] are rounded to the
      nearest double (53 significant bits, ties to even) as JavaScript
      does; the remainder [%] of two doubles is exact.  No sum or quotient
      the program computes from doubles leaves the exponent range of the
      format, so the exponent is not bounded here.  The two zeros are
      identified: no primitive used here tells them apart.
    - The closure's captured variables [alphabet], [protocol], [ids] and
      [urlmap] are the fields of a [session]; the functions that assign to
      them live in a state monad over the session.
    - [urlmap] is an object used as a map.  Its keys are the strings the
      arrays of numbers convert to, which contain only decimal digits,
      commas, minus signs and the letters of [NaN] and [Infinity], so a
      lookup never reaches a property inherited from [Object.prototype]:
      the object is a finite map from strings to strings. *)

From Stdlib Require Import ZArith Ascii String List Lia.
From stdpp Require Import gmap strings list pretty.

Local Open Scope string_scope.
Local Open Scope list_scope.
Local Open Scope Z_scope.

(** ** Numbers *)

Inductive number : Type :=
| Int (z : Z)
| NaN
| Infinity (negative : bool).

(** The primitives below take the right operand as an integer: in the
    program it is always [alphabet.length]. *)
Module JS.

(** [a % n] *)
Definition rem (a : number) (n : Z) : number :=
  match a with
  | Int z => if n =? 0 then NaN else Int (Z.rem z n)
  | NaN | Infinity _ => NaN
  end.

(** The double nearest to the rational [z / n], for [0 <= z] and [0 < n],
    when the quotient is at least 2^52: doubles are then integers, spaced
    by [u], the power of two with [2^52 * u <= z / n < 2^53 * u]. *)
Definition nearest_large (z n : Z) : Z :=
  let q := z / n in
  let u := 2 ^ (Z.log2 q - 52) in
  let a := q / u in
  let rest := z - a * u * n in
  if 2 * rest <? u * n then a * u
  else if 2 * rest =? u * n then (if Z.even a then a * u else (a + 1) * u)
  else (a + 1) * u.

(** Two over the spacing of the doubles between [q] and [q + 1], for an
    integer [0 <= q < 2^52]; for [q = 0], of the doubles from 1/2 to 1. *)
Definition half_ulp_inv (q : Z) : Z :=
  2 ^ (53 - (if q =? 0 then -1 else Z.log2 q)).

(** The floor of the double nearest to [z / n], for [0 <= z] and [0 < n].
    Below 2^52 the integers [q] and [q + 1] around the quotient are
    doubles, and the nearest double is [q + 1] exactly when the quotient is
    within half a spacing of it (a tie goes to [q + 1], which is even in
    the last place). *)
Definition floor_nearest (z n : Z) : Z :=
  let q := z / n in
  let r := z mod n in
  if 2 ^ 52 <=? q then nearest_large z n
  else if r =? 0 then q
  else if (n - r) * half_ulp_inv q <=? n then q + 1
  else q.

(** The ceiling of the double nearest to [z / n], for [0 < z] and [0 < n]. *)
Definition ceil_nearest (z n : Z) : Z :=
  let q := z / n in
  let r := z mod n in
  if 2 ^ 52 <=? q then nearest_large z n
  else if r =? 0 then q
  else if q =? 0 then 1
  else if r * half_ulp_inv q <=? n then q
  else q + 1.

(** [Math.floor(z / n)] on integer doubles, [n] not zero: the quotient is
    rounded to the nearest double, then floored. *)
Definition quot_floor (z n : Z) : Z :=
  let z' := if n <? 0 then - z else z in
  let n' := Z.abs n in
  if 0 <=? z' then floor_nearest z' n' else - ceil_nearest (- z') n'.

(** The double nearest to the integer [z]. *)
Definition round (z : Z) : Z := quot_floor z 1.

(** [z + 1] on an integer double. *)
Definition increment (z : Z) : Z := round (z + 1).

Arguments quot_floor : simpl never.
Arguments round : simpl never.
Arguments increment : simpl never.

(** [Math.floor(a / n)] *)
Definition floor_div (a : number) (n : Z) : number :=
  match a with
  | Int z =>
      if n =? 0 then (if z =? 0 then NaN else Infinity (z <? 0))
      else Int (quot_floor z n)
  | NaN => NaN
  | Infinity neg => Infinity (xorb neg (n <? 0))
  end.

(** [a > 0] *)
Definition gt0 (a : number) : bool :=
  match a with
  | Int z => 0 <? z
  | NaN => false
  | Infinity neg => negb neg
  end.

(** [String(a)] *)
Definition toString (a : number) : string :=
  match a with
  | Int z => pretty z
  | NaN => "NaN"
  | Infinity false => "Infinity"
  | Infinity true => "-Infinity"
  end.

(** [arr.join(",")], which is what [String(arr)] is for an array. *)
Fixpoint join (l : list string) : string :=
  match l with
  | [] => ""
  | [x] => x
  | x :: t => x +:+ "," +:+ join t
  end.

(** The property key an array of numbers converts to in [obj[arr]]. *)
Definition key (arr : list number) : string := join (map toString arr).

(** [s.length] *)
Definition length (s : string) : Z := Z.of_nat (String.length s).

(** The character of [s] at position [i], as a string; empty out of range. *)
Definition charAtZ (s : string) (i : Z) : string :=
  if (0 <=? i) && (i <? length s) then
    match String.get (Z.to_nat i) s with
    | Some c => String c ""
    | None => ""
    end
  else "".

(** [s.charAt(a)]: the position is converted to an integer, [NaN] to 0. *)
Definition charAt (s : string) (a : number) : string :=
  match a with
  | Int z => charAtZ s z
  | NaN => charAtZ s 0
  | Infinity _ => ""
  end.

(** [s.indexOf(c)] for a one-character string [c]: first position or -1. *)
Fixpoint indexOf_from (s : string) (c : ascii) (i : Z) : Z :=
  match s with
  | EmptyString => -1
  | String c' s' => if Ascii.eqb c' c then i else indexOf_from s' c (i + 1)
  end.

Definition indexOf (s : string) (c : ascii) : Z := indexOf_from s c 0.

(** [s.split(sep)] for a one-character separator. *)
Fixpoint split (sep : ascii) (s : string) : list string :=
  match s with
  | EmptyString => [""]
  | String c s' =>
      if Ascii.eqb c sep then "" :: split sep s'
      else match split sep s' with
           | [] => [String c ""]
           | field :: fields => String c field :: fields
           end
  end.

End JS.

(** ** Outcomes and the session monad *)

(** The exceptions the program can end in: a property read on [undefined],
    and an array that cannot grow. *)
Inductive exn : Type := TypeError | RangeError.

(** How a call ends.  No function of the program runs forever ([Diverges]):
    its only loop without a bound pushes onto an array. *)
Inductive outcome (A : Type) : Type :=
| Returns (a : A)
| Throws (e : exn)
| Diverges.
Arguments Returns {A} a.
Arguments Throws {A} e.
Arguments Diverges {A}.

(** The variables captured by the closure. *)
Record session : Type := Session {
  alphabet : string;
  protocol : string;
  ids : Z;
  urlmap : gmap string string
}.

(** [shortener(alphabet, protocol, ids)]: [urlmap] starts as [{}]. *)
Definition shortener (alphabet protocol : string) (ids : Z) : session :=
  Session alphabet protocol ids ∅.

Definition M (A : Type) : Type := session → outcome (A * session).

Definition ret {A} (a : A) : M A := λ s, Returns (a, s).

Definition bind {A B} (m : M A) (k : A → M B) : M B :=
  λ s, match m s with
       | Returns (a, s') => k a s'
       | Throws e => Throws e
       | Diverges => Diverges
       end.

Definition lift {A} (o : outcome A) : M A :=
  λ s, match o with
       | Returns a => Returns (a, s)
       | Throws e => Throws e
       | Diverges => Diverges
       end.

Definition read {A} (f : session → A) : M A := λ s, Returns (f s, s).

Definition write (f : session → session) : M unit := λ s, Returns (tt, f s).

Notation "'let*' x := m 'in' k" := (bind m (λ x, k))
  (at level 10, x name, m at level 100, k at level 200, only parsing).

(** ** The program *)

(** [return ids++]: the old value is returned, and [ids] becomes the double
    nearest to [ids + 1]. *)
Definition nextid : M Z :=
  let* id := read ids in
  let* _ := write (λ s, Session (alphabet s) (protocol s) (JS.increment id)
                          (urlmap s)) in
  ret id.

(** [url.split('/')[3]]; [None] is [undefined]. *)
Definition getPath (url : string) : option string :=
  JS.split "/" url !! 3%nat.

(** The [do ... while (id > 0)] loop of [toDigits].  [fuel] bounds the
    number of times the body runs; [None] means the loop is still running
    after [fuel] iterations. *)
Fixpoint toDigits_loop (fuel : nat) (alphabetLength : Z) (id : number)
    (idArray : list number) : option (list number) :=
  match fuel with
  | O => None
  | S fuel =>
      let remainder := JS.rem id alphabetLength in
      let idArray := idArray ++ [remainder] in
      let id := JS.floor_div id alphabetLength in
      if JS.gt0 id then toDigits_loop fuel alphabetLength id idArray
      else Some (rev idArray)
  end.

Definition toDigits_fuel (fuel : nat) (alphabet : string) (id : number)
    : option (list number) :=
  toDigits_loop fuel (JS.length alphabet) id [].

(** A number of iterations after which the loop has returned if it ever
    does (see [toDigits_RangeError]). *)
Definition iterations (id : number) : nat :=
  match id with
  | Int z => S (Z.to_nat z)
  | _ => 1
  end.

(** [toDigits(id)]: the loop run to its end.  A loop whose test never fails
    pushes onto [idArray] at every iteration, until the array cannot grow
    and [push] throws [RangeError: Invalid array length]. *)
Definition toDigits (alphabet : string) (id : number) : outcome (list number) :=
  match toDigits_fuel (iterations id) alphabet id with
  | Some idArray => Returns idArray
  | None => Throws RangeError
  end.

(** The [for] loop of [shorten]: [code += alphabet.charAt(id[index])]. *)
Definition encodeDigits (alphabet : string) (id : list number) : string :=
  fold_left (λ code d, code +:+ JS.charAt alphabet d) id "".

(** The [for] loop of [expand]: [id.push(alphabet.indexOf(path[index]))]. *)
Definition decodeCode (alphabet : string) (path : string) : list number :=
  fold_left (λ id c, id ++ [Int (JS.indexOf alphabet c)])
    (list_ascii_of_string path) [].

(** [shorten(urll)]: the array of digits replaces the identifier in [id],
    and is the property key of the new entry of [urlmap]. *)
Definition shorten (urll : string) : M string :=
  let* id := nextid in
  let* alphabet_ := read alphabet in
  let* id := lift (toDigits alphabet_ (Int id)) in
  let code := encodeDigits alphabet_ id in
  let* _ := write (λ s, Session (alphabet s) (protocol s) (ids s)
                          (<[JS.key id := urll]> (urlmap s))) in
  let* protocol_ := read protocol in
  ret (protocol_ +:+ code).

(** [expand(urls)]: [path.length] throws a [TypeError] when [path] is
    [undefined]; the result [None] is [undefined]. *)
Definition expand (urls : string) : M (option string) :=
  match getPath urls with
  | None => lift (Throws TypeError)
  | Some path =>
      let* alphabet_ := read alphabet in
      let id := decodeCode alphabet_ path in
      let* urlmap_ := read urlmap in
      ret (urlmap_ !! JS.key id)
  end.

(** ** The setup of the test harness *)

Definition setup_alphabet : string :=
  "abcdefghijklmnopqrstuvwxyz" +:+
  "ABCDEFGHIJKLMNOPQRSTUVWXYZ" +:+
  "0123456789".

Definition setup_protocol : string := "http://short.ly/".

Definition startID : Z := 4097.

Definition shortly : session := shortener setup_alphabet setup_protocol startID.

(** ** Digits as integers *)

(** [toDigitsToId] follows the specification's words: it rebuilds the
    identifier from a most-significant-first digit sequence by positional
    notation in base [radix]. *)
Definition toDigitsToId (radix : Z) (digits : list Z) : Z :=
  fold_left (λ acc d, acc * radix + d) digits 0.

(** The same value, read from the least significant digit. *)
Fixpoint lsd_value (radix : Z) (l : list Z) : Z :=
  match l with
  | [] => 0
  | d :: l => d + radix * lsd_value radix l
  end.

(** The digit values of a radix. *)
Definition in_range (radix : Z) (d : Z) : Prop := 0 ≤ d < radix.

(** ** Strings, fields and configurations *)

Abbreviation chars := list_ascii_of_string.

(** Strings without a given character. *)
Definition free_of (c : ascii) (s : string) : Prop := ¬ In c (chars s).

#[global] Instance free_of_dec c s : Decision (free_of c s).
Proof. unfold free_of. apply not_dec, In_dec, ascii_dec. Defined.

(** What follows a field in a string of fields: nothing, or a separator. *)
Definition rest_ok (sep : ascii) (r : string) : Prop :=
  r = "" ∨ ∃ r', r = String sep r'.

(** Protocols the program round-trips through: three fields, each closed by
    a slash, as in [scheme://host/]. *)
Definition valid_protocol (protocol : string) : Prop :=
  ∃ a b c, JS.split "/" protocol = [a; b; c; ""].

(** The configurations the data model allows: an alphabet of at least two
    characters, none repeated, and a non-negative starting identifier. *)
Record valid_config (alphabet : string) (ids : Z) : Prop := ValidConfig {
  alphabet_unique : NoDup (chars alphabet);
  alphabet_length : 2 ≤ JS.length alphabet;
  ids_nonneg : 0 ≤ ids
}.

(** ** Sessions *)

(** [run s shorts s']: some calls of the exported [shorten], [expand] and
    [nextid] take the session from [s] to [s']; [shorts] lists the short
    URLs the calls of [shorten] returned, latest first.  A call of [expand]
    that throws leaves the session as it was; a call of [shorten] that
    throws has advanced the counter, as a call of [nextid] does. *)
Inductive run (s : session) : list string → session → Prop :=
| run_nil : run s [] s
| run_shorten shorts s1 urll r s2 :
    run s shorts s1 → shorten urll s1 = Returns (r, s2) →
    run s (r :: shorts) s2
| run_expand shorts s1 urls r s2 :
    run s shorts s1 → expand urls s1 = Returns (r, s2) →
    run s shorts s2
| run_nextid shorts s1 id s2 :
    run s shorts s1 → nextid s1 = Returns (id, s2) →
    run s shorts s2.

(** The digits, the key and the code of an identifier. *)
Definition id_digits (alphabet : string) (id : Z) : list number :=
  match toDigits alphabet (Int id) with
  | Returns ds => ds
  | _ => []
  end.

Definition id_key (alphabet : string) (id : Z) : string :=
  JS.key (id_digits alphabet id).

Definition id_code (alphabet : string) (id : Z) : string :=
  encodeDigits alphabet (id_digits alphabet id).

(** What holds of every session started from [shortener a p i] with a
    non-negative [i]: the entries of the registry are those of identifiers
    issued to [shorten], whose short URLs were returned. *)
Record session_inv (a p : string) (shorts : list string)
    (s : session) : Prop := SessionInv {
  inv_alphabet : alphabet s = a;
  inv_protocol : protocol s = p;
  inv_ids : 0 ≤ ids s;
  inv_keys : ∀ k, is_Some (urlmap s !! k) →
             ∃ j, 0 ≤ j ∧ k = id_key a j ∧ In (p +:+ id_code a j) shorts
}.

(** What holds besides while the counter is below 2^53: the identifiers
    issued so far are smaller than the counter. *)
Record session_safe (a p : string) (i : Z) (shorts : list string)
    (s : session) : Prop := SessionSafe {
  safe_ids : i ≤ ids s;
  safe_keys : ∀ k, is_Some (urlmap s !! k) →
              ∃ j, i ≤ j < ids s ∧ k = id_key a j;
  safe_shorts : ∀ r, In r shorts →
                ∃ j, i ≤ j < ids s ∧ r = p +:+ id_code a j
}.

(** ** Sessions of the examples *)

(** [shortly] after [shorten('http://www.google.com')]. *)
Definition shortly1 : session :=
  Session setup_alphabet setup_protocol 4098
    (<["1,4,5" := "http://www.google.com"]> ∅).

(** ... and after [shorten('https://www.cics.umass.edu')]. *)
Definition shortly2 : session :=
  Session setup_alphabet setup_protocol 4099
    (<["1,4,6" := "https://www.cics.umass.edu"]>
       (<["1,4,5" := "http://www.google.com"]> ∅)).



(** A session started at 2^53, where [ids + 1] rounds back to [ids]: after
    one [shorten], and after a second one. *)
Definition stuck_session1 : session :=
  Session setup_alphabet setup_protocol (2 ^ 53)
    (<["41,15,42,49,13,59,28,40,8" := "http://www.google.com"]> ∅).

Definition stuck_session2 : session :=
  Session setup_alphabet setup_protocol (2 ^ 53)
    (<["41,15,42,49,13,59,28,40,8" := "https://www.cics.umass.edu"]> ∅).

(** A session started at the negative identifier -3 with the alphabet [ab]:
    after two calls of [shorten], and after a third one. *)
Definition negative_session2 : session :=
  Session "ab" setup_protocol (-1)
    (<["0" := "https://www.cics.umass.edu"]>
       (<["-1" := "http://www.google.com"]> ∅)).

Definition negative_session3 : session :=
  Session "ab" setup_protocol 0
    (<["-1" := "https://www.youtube.com"]>
       (<["0" := "https://www.cics.umass.edu"]>
          (<["-1" := "http://www.google.com"]> ∅))).

(** ** The rest of the program: repeated calls, [check] and the tests *)

(** [n] successive calls of [nextid], with their results in order. *)
Fixpoint nextid_times (n : nat) : M (list Z) :=
  match n with
  | O => ret []
  | S n =>
      let* id := nextid in
      let* rest := nextid_times n in
      ret (id :: rest)
  end.

(** Digit sequences in a radix with no leading zero, [[0]] apart. *)
Definition canonical (radix : Z) (digits : list Z) : Prop :=
  Forall (in_range radix) digits
  ∧ match digits with
    | [] => False
    | [_] => True
    | d :: _ => d ≠ 0
    end.

(** The number of slashes of a URL. *)
Definition slashes (url : string) : nat :=
  count_occ ascii_dec (chars url) "/"%char.

(** The values [check] is called with. *)
Inductive value : Type :=
| Undefined
| Num (n : number)
| Str (s : string).

(** [a === b]: same type and same value; [NaN] equals nothing. *)
Definition strict_equal (a b : value) : bool :=
  match a, b with
  | Undefined, Undefined => true
  | Num (Int x), Num (Int y) => x =? y
  | Num (Infinity x), Num (Infinity y) => Bool.eqb x y
  | Str s, Str t => String.eqb s t
  | _, _ => false
  end.

(** The string a value converts to in [value + ' equals ']. *)
Definition string_of_value (v : value) : string :=
  match v with
  | Undefined => "undefined"
  | Num n => JS.toString n
  | Str s => s
  end.

(** [check(yours, expected)]: the line it passes to [console.log]. *)
Definition check (yours expected : value) : string :=
  if strict_equal yours expected then
    string_of_value yours +:+ " equals " +:+ string_of_value expected
    +:+ " [PASSED]"
  else
    string_of_value yours +:+ " does not equal " +:+ string_of_value expected
    +:+ " [FAILED]".

Definition value_of_option (o : option string) : value :=
  match o with
  | Some s => Str s
  | None => Undefined
  end.

(** The five kinds of statement of the tests. *)
Definition check_nextid (expected : Z) : M string :=
  let* id := nextid in
  ret (check (Num (Int id)) (Num (Int expected))).

Definition check_path (url expected : string) : M string :=
  ret (check (value_of_option (getPath url)) (Str expected)).

Definition check_digits (id : Z) (expected : list number) : M string :=
  let* alphabet_ := read alphabet in
  let* digits := lift (toDigits alphabet_ (Int id)) in
  ret (check (Str (JS.key digits)) (Str (JS.key expected))).

Definition check_shorten (urll expected : string) : M string :=
  let* short := shorten urll in
  ret (check (Str short) (Str expected)).

Definition check_expand (urls expected : string) : M string :=
  let* long := expand urls in
  ret (check (value_of_option long) (Str expected)).

(** Statements run in order; the lines they log are collected in order. *)
Fixpoint statements (l : list (M string)) : M (list string) :=
  match l with
  | [] => ret []
  | m :: l =>
      let* line := m in
      let* lines := statements l in
      ret (line :: lines)
  end.

(** The tests on the first [shortly] object. *)
Definition tests_first : M (list string) :=
  statements
    [ check_nextid 4097; check_nextid 4098; check_nextid 4099;
      check_nextid 4100;
      check_path "http://short.ly/bef" "bef";
      check_digits 4097 [Int 1; Int 4; Int 5];
      check_digits 4098 [Int 1; Int 4; Int 6] ].

(** The tests on the second [shortly] object. *)
Definition tests_second : M (list string) :=
  statements
    [ check_shorten "http://www.google.com" "http://short.ly/bef";
      check_shorten "https://www.cics.umass.edu" "http://short.ly/beg";
      check_shorten "https://www.youtube.com" "http://short.ly/beh";
      check_shorten "https://www.netflix.com" "http://short.ly/bei";
      check_shorten "http://www.nytimes.com" "http://short.ly/bej";
      check_shorten "https://nodejs.org/en" "http://short.ly/bek";
      check_shorten "http://umass-cs-326.github.io" "http://short.ly/bel";
      check_expand "http://short.ly/bef" "http://www.google.com";
      check_expand "http://short.ly/beg" "https://www.cics.umass.edu";
      check_expand "http://short.ly/beh" "https://www.youtube.com";
      check_expand "http://short.ly/bei" "https://www.netflix.com";
      check_expand "http://short.ly/bej" "http://www.nytimes.com";
      check_expand "http://short.ly/bek" "https://nodejs.org/en";
      check_expand "http://short.ly/bel" "http://umass-cs-326.github.io" ].

(** The whole script: each [shortly] is a fresh [shortener(alphabet,
    protocol, startID)]; the result is everything logged. *)
Definition tests : outcome (list string) :=
  match tests_first (shortener setup_alphabet setup_protocol startID) with
  | Returns (lines1, _) =>
      match tests_second (shortener setup_alphabet setup_protocol startID) with
      | Returns (lines2, _) => Returns (lines1 ++ lines2)
      | Throws e => Throws e
      | Diverges => Diverges
      end
  | Throws e => Throws e
  | Diverges => Diverges
  end.

(** A line logged by a check that passed. *)
Definition passed (line : string) : Prop :=
  ∃ x, line = x +:+ " equals " +:+ x +:+ " [PASSED]".

(** * Lemmas *)

(** ** The digit loop *)

Lemma toDigitsToId_rev radix l :
  toDigitsToId radix (rev l) = lsd_value radix l.
Proof.
  unfold toDigitsToId. induction l as [|d l IH]; simpl; [done|].
  rewrite fold_left_app. simpl. rewrite IH. lia.
Qed.

Lemma toDigits_loop_mono fuel fuel' n id acc r :
  toDigits_loop fuel n id acc = Some r → (fuel ≤ fuel')%nat →
  toDigits_loop fuel' n id acc = Some r.
Proof.
  revert fuel' id acc. induction fuel as [|fuel IH]; intros fuel' id acc; [done|].
  destruct fuel' as [|fuel']; [lia|]. simpl.
  destruct (JS.gt0 _); [|done]. intros H Hle. apply IH; [done|lia].
Qed.

Lemma toDigits_loop_length fuel n id acc r :
  toDigits_loop fuel n id acc = Some r →
  (List.length acc < List.length r)%nat.
Proof.
  revert id acc. induction fuel as [|fuel IH]; intros id acc; [done|]. simpl.
  destruct (JS.gt0 _).
  - intros H%IH. rewrite length_app in H. simpl in H. lia.
  - intros [= <-]. rewrite length_rev, length_app. simpl. lia.
Qed.

(** ** Rounded quotients *)

(** The spacing [u] of the doubles around a quotient of at least 2^52. *)
Lemma spacing_bounds q :
  2 ^ 52 ≤ q →
  0 < 2 ^ (Z.log2 q - 52)
  ∧ 2 ^ 52 * 2 ^ (Z.log2 q - 52) ≤ q < 2 ^ 53 * 2 ^ (Z.log2 q - 52).
Proof.
  intros Hq. assert (0 < q) as Hpos by lia.
  pose proof (Z.log2_spec q Hpos) as [Hlo Hhi].
  assert (52 ≤ Z.log2 q) as Hlog
    by (apply Z.log2_le_pow2; [lia|done]).
  split; [apply Z.pow_pos_nonneg; lia|].
  rewrite <-!Z.pow_add_r by lia.
  replace (52 + (Z.log2 q - 52)) with (Z.log2 q) by lia.
  replace (53 + (Z.log2 q - 52)) with (Z.succ (Z.log2 q)) by lia. done.
Qed.

Lemma nearest_large_bounds z n :
  0 < n → 2 ^ 52 ≤ z / n →
  let u := 2 ^ (Z.log2 (z / n) - 52) in
  0 < u ∧ 2 ^ 52 * u ≤ JS.nearest_large z n ≤ z / n + u.
Proof.
  intros Hn Hq u. destruct (spacing_bounds (z / n) Hq) as (Hu & Hlo & Hhi).
  fold u in Hu, Hlo, Hhi. split; [done|]. unfold JS.nearest_large. fold u.
  pose proof (Z.mul_div_le (z / n) u Hu) as Hau.
  assert (2 ^ 52 ≤ z / n / u) as Ha
    by (apply Z.div_le_lower_bound; lia).
  rewrite (Z.mul_comm u) in Hau.
  repeat case_match; nia.
Qed.

Lemma nearest_large_exact z n :
  0 < n → 0 ≤ z ≤ 2 ^ 53 → 2 ^ 52 ≤ z / n →
  JS.nearest_large z n = z / n ∧ z mod n = 0.
Proof.
  intros Hn Hz Hq.
  pose proof (Z.div_mod z n ltac:(lia)) as Hdiv.
  pose proof (Z.mod_pos_bound z n Hn) as Hmod.
  assert (z / n ≤ 2 ^ 53) as Hq' by nia.
  unfold JS.nearest_large.
  destruct (decide (z / n = 2 ^ 53)) as [E|Hne].
  - assert (n = 1) as -> by nia. rewrite E.
    replace z with (2 ^ 53) in * by nia. by vm_compute.
  - assert (Z.log2 (z / n) = 52) as ->.
    { apply Z.log2_unique; [lia|]. change (Z.succ 52) with 53. lia. }
    change (2 ^ (52 - 52)) with 1. rewrite Z.div_1_r, !Z.mul_1_r, Z.mul_1_l.
    assert (z mod n = 0) as Hr by nia.
    replace (z - z / n * n) with (z mod n) by lia. rewrite Hr.
    assert ((2 * 0 <? n) = true) as -> by lia. done.
Qed.

Lemma half_ulp_inv_bounds q :
  0 ≤ q < 2 ^ 52 →
  4 ≤ JS.half_ulp_inv q
  ∧ (q = 0 → JS.half_ulp_inv q = 2 ^ 54)
  ∧ (0 < q → 2 ^ 53 ≤ JS.half_ulp_inv q * q).
Proof.
  intros [H0 H1]. unfold JS.half_ulp_inv.
  destruct (Z.eqb_spec q 0) as [->|Hne].
  - split; [by vm_compute|]. split; [done|lia].
  - pose proof (Z.log2_spec q ltac:(lia)) as [Hlo Hhi].
    pose proof (Z.log2_nonneg q) as Hnn.
    assert (Z.log2 q < 52) as Hlt by (apply Z.log2_lt_pow2; lia).
    split; [|split; [lia|]].
    + change 4 with (2 ^ 2). apply Z.pow_le_mono_r; lia.
    + intros _. replace (2 ^ 53) with (2 ^ (53 - Z.log2 q) * 2 ^ Z.log2 q)
        by (rewrite <-Z.pow_add_r by lia; f_equal; lia).
      apply Z.mul_le_mono_nonneg_l; [|done]. apply Z.pow_nonneg. lia.
Qed.

(** Up to 2^53 the rounded quotient has the floor of the exact one. *)
Lemma floor_nearest_exact z n :
  0 < n → 0 ≤ z ≤ 2 ^ 53 → JS.floor_nearest z n = z / n.
Proof.
  intros Hn Hz. unfold JS.floor_nearest.
  pose proof (Z.div_mod z n ltac:(lia)) as Hdiv.
  pose proof (Z.mod_pos_bound z n Hn) as Hmod.
  pose proof (Z.div_pos z n ltac:(lia) Hn) as Hq.
  destruct (Z.leb_spec (2 ^ 52) (z / n)) as [Hlarge|Hsmall].
  { by apply nearest_large_exact. }
  destruct (Z.eqb_spec (z mod n) 0) as [|Hr]; [done|].
  destruct (half_ulp_inv_bounds (z / n) ltac:(lia)) as (H4 & Hzero & Hpos).
  destruct (Z.leb_spec ((n - z mod n) * JS.half_ulp_inv (z / n)) n)
    as [Hup|]; [exfalso|done].
  destruct (decide (z / n = 0)) as [E|Hne].
  - rewrite (Hzero E) in Hup. rewrite E in Hdiv. nia.
  - specialize (Hpos ltac:(lia)). nia.
Qed.

Lemma floor_nearest_nonneg z n :
  0 < n → 0 ≤ z → 0 ≤ JS.floor_nearest z n.
Proof.
  intros Hn Hz. unfold JS.floor_nearest.
  pose proof (Z.div_pos z n ltac:(lia) Hn) as Hq.
  destruct (Z.leb_spec (2 ^ 52) (z / n)) as [Hlarge|Hsmall].
  - pose proof (nearest_large_bounds z n Hn Hlarge) as (? & ? & ?). nia.
  - repeat case_match; lia.
Qed.

(** With a divisor of at least two the rounded quotient is smaller than the
    dividend. *)
Lemma floor_nearest_lt z n :
  2 ≤ n → 0 < z → JS.floor_nearest z n < z.
Proof.
  intros Hn Hz. unfold JS.floor_nearest.
  pose proof (Z.div_mod z n ltac:(lia)) as Hdiv.
  pose proof (Z.mod_pos_bound z n ltac:(lia)) as Hmod.
  pose proof (Z.div_pos z n ltac:(lia) ltac:(lia)) as Hq.
  destruct (Z.leb_spec (2 ^ 52) (z / n)) as [Hlarge|Hsmall].
  - pose proof (nearest_large_bounds z n ltac:(lia) Hlarge) as (Hu & Hlo & Hhi).
    destruct (spacing_bounds (z / n) Hlarge) as (_ & Hs & _). nia.
  - destruct (Z.eqb_spec (z mod n) 0) as [Hr|Hr]; [nia|].
    destruct (half_ulp_inv_bounds (z / n) ltac:(lia)) as (H4 & _ & _).
    destruct (Z.leb_spec ((n - z mod n) * JS.half_ulp_inv (z / n)) n); nia.
Qed.

(** With the divisor one the rounded quotient of a positive dividend stays
    positive. *)
Lemma floor_nearest_1_pos z : 0 < z → 0 < JS.floor_nearest z 1.
Proof.
  intros Hz. unfold JS.floor_nearest. rewrite Z.div_1_r, Z.mod_1_r.
  destruct (Z.leb_spec (2 ^ 52) z) as [Hlarge|Hsmall]; [|simpl; lia].
  pose proof (nearest_large_bounds z 1 ltac:(lia)) as Hb.
  rewrite Z.div_1_r in Hb. destruct (Hb Hlarge) as (? & ? & ?). nia.
Qed.

Lemma ceil_nearest_nonneg z n : 0 < n → 0 ≤ z → 0 ≤ JS.ceil_nearest z n.
Proof.
  intros Hn Hz. unfold JS.ceil_nearest.
  pose proof (Z.div_pos z n ltac:(lia) Hn) as Hq.
  destruct (Z.leb_spec (2 ^ 52) (z / n)) as [Hlarge|Hsmall].
  - pose proof (nearest_large_bounds z n Hn Hlarge) as (? & ? & ?). nia.
  - repeat case_match; lia.
Qed.

Lemma ceil_nearest_1_exact z : 0 ≤ z ≤ 2 ^ 53 → JS.ceil_nearest z 1 = z.
Proof.
  intros Hz. unfold JS.ceil_nearest. rewrite Z.mod_1_r.
  destruct (Z.leb_spec (2 ^ 52) (z / 1)) as [Hlarge|Hsmall].
  - destruct (nearest_large_exact z 1 ltac:(lia) Hz Hlarge) as [-> _].
    apply Z.div_1_r.
  - simpl. apply Z.div_1_r.
Qed.

(** ** [quot_floor], [round] and [increment] *)

Lemma quot_floor_nonneg z n : 0 < n → 0 ≤ z → JS.quot_floor z n = JS.floor_nearest z n.
Proof.
  intros Hn Hz. unfold JS.quot_floor.
  assert ((n <? 0) = false) as -> by lia. rewrite Z.abs_eq by lia.
  by assert ((0 <=? z) = true) as -> by lia.
Qed.

Lemma quot_floor_neg z n : 0 < n → z < 0 → JS.quot_floor z n ≤ 0.
Proof.
  intros Hn Hz. unfold JS.quot_floor.
  assert ((n <? 0) = false) as -> by lia. rewrite Z.abs_eq by lia.
  assert ((0 <=? z) = false) as -> by lia.
  pose proof (ceil_nearest_nonneg (- z) n Hn ltac:(lia)). lia.
Qed.

Lemma quot_floor_exact z n :
  0 < n → 0 ≤ z ≤ 2 ^ 53 → JS.quot_floor z n = z / n.
Proof.
  intros Hn Hz. rewrite quot_floor_nonneg by lia. by apply floor_nearest_exact.
Qed.

Lemma round_exact z : - 2 ^ 53 ≤ z ≤ 2 ^ 53 → JS.round z = z.
Proof.
  intros Hz. unfold JS.round. destruct (decide (0 ≤ z)) as [H0|H0].
  - rewrite quot_floor_exact by lia. apply Z.div_1_r.
  - unfold JS.quot_floor. simpl.
    assert ((0 <=? z) = false) as -> by lia.
    rewrite ceil_nearest_1_exact by lia. lia.
Qed.

(** From 2^53 on the nearest double is at least 2^53. *)
Lemma round_large z : 2 ^ 53 ≤ z → 2 ^ 53 ≤ JS.round z.
Proof.
  intros Hz. unfold JS.round. rewrite quot_floor_nonneg by lia.
  unfold JS.floor_nearest. rewrite Z.div_1_r.
  assert ((2 ^ 52 <=? z) = true) as -> by lia.
  pose proof (nearest_large_bounds z 1 ltac:(lia)) as Hb.
  rewrite Z.div_1_r in Hb. destruct (Hb ltac:(lia)) as (Hu & Hlo & _).
  assert (53 ≤ Z.log2 z) by (apply Z.log2_le_pow2; lia).
  assert (2 ^ 1 ≤ 2 ^ (Z.log2 z - 52)) by (apply Z.pow_le_mono_r; lia).
  lia.
Qed.

Lemma round_nonneg z : 0 ≤ z → 0 ≤ JS.round z.
Proof.
  intros Hz. unfold JS.round. rewrite quot_floor_nonneg by lia.
  by apply floor_nearest_nonneg.
Qed.

(** The counter after [ids++]. *)
Lemma increment_exact z : - 2 ^ 53 ≤ z < 2 ^ 53 → JS.increment z = z + 1.
Proof. intros Hz. unfold JS.increment. apply round_exact. lia. Qed.

Lemma increment_nonneg z : 0 ≤ z → 0 ≤ JS.increment z.
Proof. intros Hz. unfold JS.increment. apply round_nonneg. lia. Qed.

(** A counter below 2^53 after [ids++] was below 2^53 - 1 before it. *)
Lemma increment_safe z :
  0 ≤ z → JS.increment z < 2 ^ 53 → JS.increment z = z + 1.
Proof.
  intros Hz Hlt. apply increment_exact. split; [lia|].
  destruct (decide (z + 1 < 2 ^ 53)) as [|Hge]; [lia|].
  pose proof (round_large (z + 1) ltac:(lia)). unfold JS.increment in Hlt. lia.
Qed.

(** The rounding at work: sums beyond 2^53 go to the nearest double, the
    even one in a tie, and so do quotients. *)
Example increment_at_2_53 : JS.increment (2 ^ 53) = 2 ^ 53.
Proof. by vm_compute. Qed.

Example increment_tie_up : JS.increment (2 ^ 53 + 2) = 2 ^ 53 + 4.
Proof. by vm_compute. Qed.

Example increment_negative_tie : JS.increment (- 2 ^ 53 - 2) = - 2 ^ 53.
Proof. by vm_compute. Qed.

Example increment_far_negative : JS.increment (- 2 ^ 60) = - 2 ^ 60.
Proof. by vm_compute. Qed.

Example quot_floor_rounds_up_62 :
  JS.quot_floor (62 * 2 ^ 49 + 60) 62 = 2 ^ 49 + 1.
Proof. by vm_compute. Qed.

Example quot_floor_rounds_up_3 : JS.quot_floor (3 ^ 34 - 1) 3 = 3 ^ 33.
Proof. by vm_compute. Qed.

Lemma quot_floor_nonpos z n : 0 < n → z ≤ 0 → JS.quot_floor z n ≤ 0.
Proof.
  intros Hn Hz. destruct (decide (z = 0)) as [->|Hne].
  - by rewrite quot_floor_exact by lia.
  - apply quot_floor_neg; lia.
Qed.

Lemma quot_floor_lt z n :
  2 ≤ n → 0 < z → 0 ≤ JS.quot_floor z n < z.
Proof.
  intros Hn Hz. rewrite quot_floor_nonneg by lia. split.
  - apply floor_nearest_nonneg; lia.
  - by apply floor_nearest_lt.
Qed.

(** ** The digit loop, continued *)

(** On a non-negative integer and a radix of at least two the loop returns:
    the rounded quotient decreases, so more iterations than the identifier
    itself are never needed.  Every digit is a remainder, in the range of
    the radix. *)
Lemma toDigits_loop_range n fuel z acc :
  2 ≤ n → 0 ≤ z → (Z.to_nat z < fuel)%nat →
  ∃ l, toDigits_loop fuel n (Int z) acc = Some (rev (acc ++ map Int l))
       ∧ Forall (in_range n) l ∧ l ≠ [].
Proof.
  intros Hn. revert z acc.
  induction fuel as [|fuel IH]; intros z acc Hz Hfuel; [lia|].
  simpl. assert ((n =? 0) = false) as -> by lia.
  rewrite Z.rem_mod_nonneg by lia.
  pose proof (Z.mod_pos_bound z n ltac:(lia)) as Hmod.
  assert (0 ≤ JS.quot_floor z n ≤ z ∧ (0 < z → JS.quot_floor z n < z))
    as [Hq0 Hq1].
  { destruct (decide (z = 0)) as [->|Hne].
    - rewrite quot_floor_exact by lia. by rewrite Z.div_0_l by lia.
    - destruct (quot_floor_lt z n Hn ltac:(lia)). lia. }
  unfold JS.gt0. destruct (decide (0 < JS.quot_floor z n)) as [Hq|Hq].
  - assert ((0 <? JS.quot_floor z n) = true) as -> by lia.
    destruct (IH (JS.quot_floor z n) (acc ++ [Int (z `mod` n)]))
      as (l & Hl & Hr & _); [lia|lia|].
    exists (z `mod` n :: l). rewrite Hl. simpl. rewrite <-app_assoc. simpl.
    split; [done|]. split; [|done]. by constructor.
  - assert ((0 <? JS.quot_floor z n) = false) as -> by lia.
    exists [z `mod` n]. simpl.
    split; [done|]. split; [|done]. constructor; [done|constructor].
Qed.

(** Up to 2^53 the quotients are exact, and the digits are those of the
    identifier in base [n], least significant first before the final
    reversal. *)
Lemma toDigits_loop_digits n fuel z acc :
  2 ≤ n → 0 ≤ z ≤ 2 ^ 53 → (Z.to_nat z < fuel)%nat →
  ∃ l, toDigits_loop fuel n (Int z) acc = Some (rev (acc ++ map Int l))
       ∧ lsd_value n l = z ∧ Forall (in_range n) l ∧ l ≠ [].
Proof.
  intros Hn. revert z acc.
  induction fuel as [|fuel IH]; intros z acc Hz Hfuel; [lia|].
  simpl. assert ((n =? 0) = false) as -> by lia.
  rewrite Z.rem_mod_nonneg, quot_floor_exact by lia.
  pose proof (Z.mod_pos_bound z n ltac:(lia)) as Hmod.
  pose proof (Z.div_mod z n ltac:(lia)) as Hdiv.
  unfold JS.gt0. destruct (decide (0 < z / n)) as [Hq|Hq].
  - assert ((0 <? z / n) = true) as -> by lia.
    assert (z / n < z) by (apply Z.div_lt; lia).
    destruct (IH (z / n) (acc ++ [Int (z `mod` n)])) as (l & Hl & Hv & Hr & _);
      [lia|lia|].
    exists (z `mod` n :: l). rewrite Hl. simpl. rewrite <-app_assoc. simpl.
    split; [done|]. split; [lia|]. split; [|done]. by constructor.
  - assert ((0 <? z / n) = false) as -> by lia.
    assert (z / n = 0) by (pose proof (Z.div_pos z n); lia).
    exists [z `mod` n]. simpl.
    split; [done|]. split; [lia|]. split; [|done]. constructor; [done|constructor].
Qed.

(** Loops whose test never fails: a radix of one or zero on a positive
    identifier, and positive infinity. *)
Lemma toDigits_loop_inf fuel n acc :
  0 ≤ n → toDigits_loop fuel n (Infinity false) acc = None.
Proof.
  intros Hn. revert acc. induction fuel as [|fuel IH]; intros acc; [done|].
  simpl. assert ((n <? 0) = false) as -> by lia. simpl. apply IH.
Qed.

Lemma toDigits_loop_radix1 fuel z acc :
  0 < z → toDigits_loop fuel 1 (Int z) acc = None.
Proof.
  revert z acc. induction fuel as [|fuel IH]; intros z acc Hz; [done|].
  simpl. unfold JS.gt0. rewrite quot_floor_nonneg by lia.
  pose proof (floor_nearest_1_pos z Hz).
  assert ((0 <? JS.floor_nearest z 1) = true) as -> by lia. by apply IH.
Qed.

Lemma toDigits_loop_radix0 fuel z acc :
  0 < z → toDigits_loop fuel 0 (Int z) acc = None.
Proof.
  intros Hz. destruct fuel as [|fuel]; [done|]. simpl.
  assert ((z =? 0) = false) as -> by lia. assert ((z <? 0) = false) as -> by lia.
  simpl. by apply toDigits_loop_inf.
Qed.

Lemma length_nonneg alphabet : 0 ≤ JS.length alphabet.
Proof. unfold JS.length. lia. Qed.

(** One iteration is enough on an identifier that is not positive. *)
Lemma toDigits_loop_nonpos n z acc :
  0 ≤ n → z ≤ 0 →
  toDigits_loop 1 n (Int z) acc
  = Some (rev (acc ++ [JS.rem (Int z) n])).
Proof.
  intros Hn Hz. cbn [toDigits_loop]. unfold JS.gt0, JS.floor_div.
  destruct (n =? 0) eqn:En.
  - destruct (z =? 0) eqn:Ez0; [done|].
    by assert ((z <? 0) = true) as -> by lia.
  - pose proof (quot_floor_nonpos z n ltac:(lia) Hz).
    by assert ((0 <? JS.quot_floor z n) = false) as -> by lia.
Qed.

(** [toDigits] is the loop run to completion: whatever some amount of fuel
    returns, [toDigits] returns. *)
Lemma toDigits_fuel_Returns fuel alphabet id r :
  toDigits_fuel fuel alphabet id = Some r → toDigits alphabet id = Returns r.
Proof.
  unfold toDigits, toDigits_fuel. intros H.
  pose proof (length_nonneg alphabet) as Hlen.
  set (n := JS.length alphabet) in *.
  destruct (toDigits_loop (iterations id) n id []) as [r'|] eqn:E.
  - f_equal. destruct (Nat.le_ge_cases fuel (iterations id)) as [Hle|Hle].
    + apply (toDigits_loop_mono _ _ _ _ _ _ H) in Hle. congruence.
    + apply (toDigits_loop_mono _ _ _ _ _ _ E) in Hle. congruence.
  - exfalso. destruct id as [z| |[]].
    + destruct (decide (z ≤ 0)) as [Hz|Hz].
      * pose proof (toDigits_loop_nonpos n z [] Hlen Hz) as H1.
        apply (toDigits_loop_mono _ (iterations (Int z))) in H1; [congruence|].
        simpl. lia.
      * assert (n = 0 ∨ n = 1 ∨ 2 ≤ n) as [->|[->|Hn]] by lia.
        -- rewrite toDigits_loop_radix0 in H by lia. done.
        -- rewrite toDigits_loop_radix1 in H by lia. done.
        -- destruct (toDigits_loop_range n (iterations (Int z)) z [] Hn)
             as (l & Hl & _); [lia|simpl; lia|]. congruence.
    + simpl in E. done.
    + simpl in E. unfold JS.gt0, JS.floor_div in E.
      assert ((n <? 0) = false) as Hn by lia. by rewrite Hn in E.
    + rewrite toDigits_loop_inf in H by done. done.
Qed.

(** Hence [RangeError] is exact: [toDigits] throws it when the test of the
    loop has not failed after any number of iterations, and only then. *)
Lemma toDigits_RangeError alphabet id :
  toDigits alphabet id = Throws RangeError
  ↔ ∀ fuel, toDigits_fuel fuel alphabet id = None.
Proof.
  split.
  - intros H fuel. destruct (toDigits_fuel fuel alphabet id) eqn:E; [|done].
    apply toDigits_fuel_Returns in E. congruence.
  - intros H. unfold toDigits. by rewrite H.
Qed.

Lemma toDigits_Returns alphabet id r :
  toDigits alphabet id = Returns r ↔ ∃ fuel, toDigits_fuel fuel alphabet id = Some r.
Proof.
  split.
  - unfold toDigits. intros H. exists (iterations id).
    destruct (toDigits_fuel _ _ _); congruence.
  - intros [fuel H]. by eapply toDigits_fuel_Returns.
Qed.

Lemma toDigits_outcome alphabet id :
  (∃ r, toDigits alphabet id = Returns r)
  ∨ toDigits alphabet id = Throws RangeError.
Proof.
  unfold toDigits. destruct (toDigits_fuel _ _ _); [left; by eexists|by right].
Qed.

Lemma toDigits_range alphabet z :
  2 ≤ JS.length alphabet → 0 ≤ z →
  ∃ ds, toDigits alphabet (Int z) = Returns (map Int ds)
        ∧ Forall (in_range (JS.length alphabet)) ds ∧ ds ≠ [].
Proof.
  intros Hn Hz.
  destruct (toDigits_loop_range (JS.length alphabet) (S (Z.to_nat z)) z [] Hn Hz)
    as (l & Hl & Hr & Hne); [lia|].
  exists (rev l). split; [|split].
  - apply (toDigits_fuel_Returns (S (Z.to_nat z))). unfold toDigits_fuel.
    rewrite Hl. simpl. by rewrite map_rev.
  - by apply Forall_rev.
  - intros E. apply Hne. apply (f_equal (@rev Z)) in E.
    by rewrite rev_involutive in E.
Qed.

Lemma toDigits_nonneg alphabet z :
  2 ≤ JS.length alphabet → 0 ≤ z ≤ 2 ^ 53 →
  ∃ ds, toDigits alphabet (Int z) = Returns (map Int ds)
        ∧ toDigitsToId (JS.length alphabet) ds = z
        ∧ Forall (in_range (JS.length alphabet)) ds ∧ ds ≠ [].
Proof.
  intros Hn Hz.
  destruct (toDigits_loop_digits (JS.length alphabet) (S (Z.to_nat z)) z [] Hn Hz)
    as (l & Hl & Hv & Hr & Hne); [lia|].
  exists (rev l). split; [|split; [|split]].
  - apply (toDigits_fuel_Returns (S (Z.to_nat z))). unfold toDigits_fuel.
    rewrite Hl. simpl. by rewrite map_rev.
  - by rewrite toDigitsToId_rev.
  - by apply Forall_rev.
  - intros E. apply Hne. apply (f_equal (@rev Z)) in E.
    by rewrite rev_involutive in E.
Qed.

Lemma Int_map_inj (l1 l2 : list Z) : map Int l1 = map Int l2 → l1 = l2.
Proof.
  revert l2. induction l1 as [|x l1 IH]; intros [|y l2] E; simplify_eq/=; [done|].
  f_equal. by apply IH.
Qed.

(** Distinct identifiers up to 2^53 have distinct digit sequences. *)
Lemma toDigits_inj alphabet z1 z2 r :
  2 ≤ JS.length alphabet → 0 ≤ z1 ≤ 2 ^ 53 → 0 ≤ z2 ≤ 2 ^ 53 →
  toDigits alphabet (Int z1) = Returns r →
  toDigits alphabet (Int z2) = Returns r → z1 = z2.
Proof.
  intros Hn H1 H2 E1 E2.
  destruct (toDigits_nonneg alphabet z1 Hn H1) as (d1 & Hd1 & <- & _).
  destruct (toDigits_nonneg alphabet z2 Hn H2) as (d2 & Hd2 & <- & _).
  rewrite E1 in Hd1. rewrite E2 in Hd2. simplify_eq.
  f_equal. apply Int_map_inj. congruence.
Qed.

(** ** Strings *)

Lemma str_app_nil_r s : s +:+ "" = s.
Proof. induction s as [|c s IH]; [done|]. cbv [String.append]. fold String.append. by rewrite IH. Qed.

Lemma str_app_cons c s t : String c s +:+ t = String c (s +:+ t).
Proof. done. Qed.

Lemma str_app_assoc s t u : (s +:+ t) +:+ u = s +:+ (t +:+ u).
Proof.
  induction s as [|c s IH]; [done|]. rewrite !str_app_cons. by rewrite IH.
Qed.

Lemma chars_app s t : chars (s +:+ t) = chars s ++ chars t.
Proof.
  induction s as [|c s IH]; [done|]. rewrite str_app_cons. simpl. by rewrite IH.
Qed.

Lemma chars_inj s t : chars s = chars t → s = t.
Proof.
  intros E. rewrite <-(string_of_list_ascii_of_string s),
    <-(string_of_list_ascii_of_string t). by rewrite E.
Qed.

Lemma get_is_Some s (k : nat) :
  (k < String.length s)%nat → is_Some (String.get k s).
Proof.
  revert k. induction s as [|c s IH]; intros k Hk; simpl in *; [lia|].
  destruct k as [|k]; [by eexists|]. apply IH. lia.
Qed.

Lemma get_In s k c : String.get k s = Some c → In c (chars s).
Proof.
  revert k. induction s as [|c' s IH]; intros k; simpl; [done|].
  destruct k as [|k]; [intros [= ->]; by left|]. intros H. right. by eapply IH.
Qed.

(** ** Characters and digits *)

Lemma charAtZ_get alphabet d :
  in_range (JS.length alphabet) d →
  ∃ c, JS.charAtZ alphabet d = String c ""
       ∧ String.get (Z.to_nat d) alphabet = Some c.
Proof.
  intros [H0 H1]. unfold JS.charAtZ.
  assert ((0 <=? d) && (d <? JS.length alphabet) = true) as ->
    by (apply andb_true_iff; lia).
  destruct (get_is_Some alphabet (Z.to_nat d)) as [c Hc];
    [unfold JS.length in H1; lia|].
  exists c. by rewrite Hc.
Qed.

(** With no repeated character, [indexOf] finds the position a character
    was read from. *)
Lemma indexOf_from_get s k c i :
  NoDup (chars s) → String.get k s = Some c →
  JS.indexOf_from s c i = i + Z.of_nat k.
Proof.
  revert k i. induction s as [|c' s IH]; intros k i Hnd Hget; simpl in *; [done|].
  apply NoDup_cons in Hnd as [Hnot Hnd].
  destruct k as [|k].
  - injection Hget as ->. rewrite Ascii.eqb_refl. lia.
  - destruct (Ascii.eqb_spec c' c) as [->|Hne].
    + exfalso. apply Hnot. apply list_elem_of_In. by eapply get_In.
    + rewrite (IH k) by done. lia.
Qed.

(** Conversely, whatever position [indexOf] reports holds the character. *)
Lemma indexOf_from_found s c i :
  JS.indexOf_from s c i ≠ -1 → 0 ≤ i →
  i ≤ JS.indexOf_from s c i < i + JS.length s
  ∧ String.get (Z.to_nat (JS.indexOf_from s c i - i)) s = Some c.
Proof.
  unfold JS.length. revert i. induction s as [|c' s IH]; intros i Hf Hi; simpl in *; [done|].
  destruct (Ascii.eqb_spec c' c) as [->|Hne].
  - rewrite Z.sub_diag. simpl. split; [lia|done].
  - destruct (IH (i + 1) Hf ltac:(lia)) as [Hr Hg]. split; [lia|].
    replace (Z.to_nat (JS.indexOf_from s c (i + 1) - i))
      with (S (Z.to_nat (JS.indexOf_from s c (i + 1) - (i + 1)))) by lia.
    done.
Qed.

Lemma indexOf_bounds s c : -1 ≤ JS.indexOf s c < JS.length s.
Proof.
  unfold JS.indexOf. pose proof (length_nonneg s).
  destruct (decide (JS.indexOf_from s c 0 = -1)) as [->|Hne]; [lia|].
  destruct (indexOf_from_found s c 0 Hne); lia.
Qed.

Lemma charAt_indexOf alphabet c :
  0 ≤ JS.indexOf alphabet c →
  JS.charAt alphabet (Int (JS.indexOf alphabet c)) = String c "".
Proof.
  intros H. unfold JS.indexOf in *. simpl.
  destruct (indexOf_from_found alphabet c 0) as [Hr Hg]; [lia|lia|].
  unfold JS.charAtZ.
  assert ((0 <=? JS.indexOf_from alphabet c 0)
          && (JS.indexOf_from alphabet c 0 <? JS.length alphabet) = true) as ->
    by (apply andb_true_iff; lia).
  rewrite Z.sub_0_r in Hg. by rewrite Hg.
Qed.

Lemma indexOf_charAt alphabet d :
  NoDup (chars alphabet) → in_range (JS.length alphabet) d →
  ∃ c, JS.charAt alphabet (Int d) = String c "" ∧ JS.indexOf alphabet c = d.
Proof.
  intros Hnd Hd. destruct (charAtZ_get alphabet d Hd) as (c & Hc & Hg).
  exists c. split; [done|]. unfold JS.indexOf.
  rewrite (indexOf_from_get _ _ _ _ Hnd Hg). destruct Hd. lia.
Qed.

(** The two [for] loops, unrolled. *)
Lemma encodeDigits_fold alphabet ds code :
  fold_left (λ code d, code +:+ JS.charAt alphabet d) ds code
  = code +:+ encodeDigits alphabet ds.
Proof.
  unfold encodeDigits. revert code.
  induction ds as [|d ds IH]; intros code; simpl; [by rewrite str_app_nil_r|].
  rewrite IH, (IH ("" +:+ _)). by rewrite str_app_assoc.
Qed.

Lemma encodeDigits_cons alphabet d ds :
  encodeDigits alphabet (d :: ds)
  = JS.charAt alphabet d +:+ encodeDigits alphabet ds.
Proof. unfold encodeDigits at 1. simpl. by rewrite encodeDigits_fold. Qed.

Lemma decodeCode_fold alphabet cs id :
  fold_left (λ id c, id ++ [Int (JS.indexOf alphabet c)]) cs id
  = id ++ map (λ c, Int (JS.indexOf alphabet c)) cs.
Proof.
  revert id. induction cs as [|c cs IH]; intros id; simpl; [by rewrite app_nil_r|].
  rewrite IH. by rewrite <-app_assoc.
Qed.

Lemma decodeCode_chars alphabet path :
  decodeCode alphabet path = map (λ c, Int (JS.indexOf alphabet c)) (chars path).
Proof. unfold decodeCode. by rewrite decodeCode_fold. Qed.

(** Decoding what was encoded gives the digits back. *)
Lemma decode_encode alphabet ds :
  NoDup (chars alphabet) → Forall (in_range (JS.length alphabet)) ds →
  decodeCode alphabet (encodeDigits alphabet (map Int ds)) = map Int ds.
Proof.
  intros Hnd. rewrite decodeCode_chars.
  induction 1 as [|d ds Hd _ IH]; [done|].
  simpl map at 2. rewrite encodeDigits_cons.
  destruct (indexOf_charAt alphabet d Hnd Hd) as (c & -> & Hc).
  rewrite str_app_cons. simpl. rewrite Hc. f_equal. exact IH.
Qed.

(** A code that decodes to digits of the alphabet is the encoding of those
    digits. *)
Lemma encode_decode alphabet path ds :
  Forall (in_range (JS.length alphabet)) ds →
  decodeCode alphabet path = map Int ds →
  encodeDigits alphabet (map Int ds) = path.
Proof.
  rewrite decodeCode_chars. intros Hr E. apply chars_inj.
  revert ds Hr E. generalize (chars path) as cs. clear path.
  induction cs as [|c cs IH]; intros [|d ds] Hr E; simplify_eq/=; [done|].
  apply Forall_cons in Hr as [[Hd _] Hr].
  rewrite encodeDigits_cons, charAt_indexOf by done.
  rewrite str_app_cons. simpl. f_equal. by apply IH.
Qed.

(** ** Property keys *)

Lemma free_of_cons c c' s : free_of c (String c' s) ↔ c' ≠ c ∧ free_of c s.
Proof. unfold free_of. simpl. tauto. Qed.

Lemma free_of_app c s t : free_of c (s +:+ t) ↔ free_of c s ∧ free_of c t.
Proof. unfold free_of. rewrite chars_app, in_app_iff. tauto. Qed.

Lemma free_of_nil c : free_of c "".
Proof. unfold free_of. simpl. tauto. Qed.

Local Hint Resolve free_of_nil : core.

Lemma pretty_N_char_comma x : pretty_N_char x ≠ ","%char.
Proof. unfold pretty_N_char. by repeat case_match. Qed.

Lemma pretty_N_go_comma x s :
  free_of "," s → free_of "," (pretty_N_go x s).
Proof.
  revert s. induction (N.lt_wf_0 x) as [x _ IH]; intros s Hs.
  destruct (decide (x = 0)%N) as [->|Hx]; [by rewrite pretty_N_go_0|].
  rewrite pretty_N_go_step by lia. apply IH.
  - apply N.div_lt; lia.
  - apply free_of_cons. split; [apply pretty_N_char_comma|done].
Qed.

Lemma pretty_N_go_nonempty x s : s ≠ "" → pretty_N_go x s ≠ "".
Proof.
  revert s. induction (N.lt_wf_0 x) as [x _ IH]; intros s Hs.
  destruct (decide (x = 0)%N) as [->|Hx]; [by rewrite pretty_N_go_0|].
  rewrite pretty_N_go_step by lia. apply IH; [apply N.div_lt; lia|done].
Qed.

Lemma pretty_N_comma (x : N) : free_of "," (pretty x).
Proof.
  unfold pretty, pretty_N. case_decide.
  - apply free_of_cons. split; [done|auto].
  - by apply pretty_N_go_comma.
Qed.

Lemma pretty_N_nonempty (x : N) : pretty x ≠ "".
Proof.
  unfold pretty, pretty_N. case_decide; [done|].
  rewrite pretty_N_go_step by lia. by apply pretty_N_go_nonempty.
Qed.

Lemma pretty_Z_comma (z : Z) : free_of "," (pretty z).
Proof.
  destruct z as [|p|p]; unfold pretty, pretty_Z.
  - apply free_of_cons. split; [done|auto].
  - apply pretty_N_comma.
  - apply free_of_app. split; [|apply pretty_N_comma].
    apply free_of_cons. split; [done|auto].
Qed.

Lemma pretty_Z_nonempty (z : Z) : pretty z ≠ "".
Proof.
  destruct z as [|p|p]; unfold pretty, pretty_Z; [done| |done].
  apply pretty_N_nonempty.
Qed.

Lemma field_rest_inj sep f1 f2 r1 r2 :
  free_of sep f1 → free_of sep f2 → rest_ok sep r1 → rest_ok sep r2 →
  f1 +:+ r1 = f2 +:+ r2 → f1 = f2 ∧ r1 = r2.
Proof.
  revert f2. induction f1 as [|c f1 IH]; intros [|c2 f2] H1 H2 Hr1 Hr2 E.
  - done.
  - apply free_of_cons in H2 as [Hc _].
    destruct Hr1 as [->|[r ->]]; simplify_eq/=.
  - apply free_of_cons in H1 as [Hc _].
    destruct Hr2 as [->|[r ->]]; simplify_eq/=.
  - apply free_of_cons in H1 as [_ H1]. apply free_of_cons in H2 as [_ H2].
    rewrite !str_app_cons in E. injection E as -> E.
    destruct (IH f2 H1 H2 Hr1 Hr2 E) as [-> ->]. done.
Qed.

Lemma join_cons x t :
  JS.join (x :: t) = x +:+ match t with [] => "" | _ => String "," (JS.join t) end.
Proof. destruct t; simpl; [by rewrite str_app_nil_r|done]. Qed.

Lemma join_inj l1 l2 :
  Forall (λ x, free_of "," x ∧ x ≠ "") l1 →
  Forall (λ x, free_of "," x ∧ x ≠ "") l2 →
  JS.join l1 = JS.join l2 → l1 = l2.
Proof.
  intros H1. revert l2.
  induction H1 as [|x1 t1 [Hx1 Hne1] Ht1 IH]; intros l2 H2 E.
  - destruct H2 as [|x2 t2 [_ Hne2] _]; [done|].
    rewrite join_cons in E. by destruct x2.
  - destruct H2 as [|x2 t2 [Hx2 Hne2] Ht2].
    { rewrite join_cons in E. by destruct x1. }
    rewrite !join_cons in E.
    apply (field_rest_inj ",") in E as [-> E]; [f_equal|done|done|..].
    + destruct t1, t2; simplify_eq/=; [done|]. by apply IH.
    + destruct t1; [by left|right; by eexists].
    + destruct t2; [by left|right; by eexists].
Qed.

(** Arrays of integers convert to distinct keys. *)
Lemma key_inj (l1 l2 : list Z) :
  JS.key (map Int l1) = JS.key (map Int l2) → l1 = l2.
Proof.
  unfold JS.key. rewrite !map_map. simpl. intros E.
  apply join_inj in E.
  - revert l2 E. induction l1 as [|x l1 IH]; intros [|y l2] E;
      simplify_eq/=; try done.
  - apply Forall_map, Forall_forall. intros z _.
    split; [apply pretty_Z_comma|apply pretty_Z_nonempty].
  - apply Forall_map, Forall_forall. intros z _.
    split; [apply pretty_Z_comma|apply pretty_Z_nonempty].
Qed.

(** ** Splitting *)


Lemma split_free sep f : free_of sep f → JS.split sep f = [f].
Proof.
  induction f as [|c f IH]; intros Hf; simpl; [done|].
  apply free_of_cons in Hf as [Hc Hf].
  destruct (Ascii.eqb_spec c sep) as [|_]; [done|]. by rewrite IH.
Qed.

(** A separator-free prefix followed by a separator is the first field. *)
Lemma split_field sep f s :
  free_of sep f → JS.split sep (f +:+ String sep s) = f :: JS.split sep s.
Proof.
  induction f as [|c f IH]; intros Hf.
  - change ("" +:+ String sep s) with (String sep s). simpl.
    by rewrite Ascii.eqb_refl.
  - apply free_of_cons in Hf as [Hc Hf]. rewrite str_app_cons. simpl.
    destruct (Ascii.eqb_spec c sep) as [|_]; [done|]. by rewrite IH.
Qed.

Lemma split_field_app sep f s :
  free_of sep f →
  JS.split sep (f +:+ String sep "" +:+ s) = f :: JS.split sep s.
Proof. exact (split_field sep f s). Qed.



(** The fourth field of a URL is what [getPath] returns. *)
Lemma getPath_fields a b c d rest :
  free_of "/" a → free_of "/" b → free_of "/" c → free_of "/" d →
  rest_ok "/" rest →
  getPath (a +:+ "/" +:+ b +:+ "/" +:+ c +:+ "/" +:+ d +:+ rest) = Some d.
Proof.
  intros Ha Hb Hc Hd Hr. unfold getPath.
  rewrite !split_field_app by done.
  destruct Hr as [->|[r ->]].
  - rewrite str_app_nil_r, split_free by done. done.
  - rewrite split_field by done. done.
Qed.

(** ** Sessions *)

Lemma nextid_Returns s id s' :
  nextid s = Returns (id, s') ↔
  id = ids s
  ∧ s' = Session (alphabet s) (protocol s) (JS.increment (ids s)) (urlmap s).
Proof.
  unfold nextid, bind, read, write, ret. split.
  - by intros [= <- <-].
  - by intros [-> ->].
Qed.

Lemma shorten_Returns urll s r s' :
  shorten urll s = Returns (r, s') ↔
  ∃ ds, toDigits (alphabet s) (Int (ids s)) = Returns ds
        ∧ r = protocol s +:+ encodeDigits (alphabet s) ds
        ∧ s' = Session (alphabet s) (protocol s) (JS.increment (ids s))
                 (<[JS.key ds := urll]> (urlmap s)).
Proof.
  unfold shorten, nextid, bind, read, write, lift, ret. simpl.
  destruct (toDigits (alphabet s) (Int (ids s))) as [ds|e|] eqn:E.
  - split.
    + intros [= <- <-]. by exists ds.
    + intros (ds' & [= <-] & -> & ->). done.
  - split; [done|]. by intros (? & ? & _).
  - split; [done|]. by intros (? & ? & _).
Qed.

(** [shorten] throws what [toDigits] throws. *)
Lemma shorten_Throws urll s e :
  shorten urll s = Throws e ↔ toDigits (alphabet s) (Int (ids s)) = Throws e.
Proof.
  unfold shorten, nextid, bind, read, write, lift, ret. simpl.
  destruct (toDigits (alphabet s) (Int (ids s))); split; congruence.
Qed.

Lemma expand_Returns urls s r s' :
  expand urls s = Returns (r, s') ↔
  ∃ path, getPath urls = Some path
          ∧ r = urlmap s !! JS.key (decodeCode (alphabet s) path) ∧ s' = s.
Proof.
  unfold expand. destruct (getPath urls) as [path|].
  - unfold bind, read, ret. split.
    + intros [= <- <-]. by exists path.
    + intros (? & [= <-] & -> & ->). done.
  - unfold lift. split; [done|]. by intros (? & ? & _).
Qed.

Lemma expand_Throws urls s :
  expand urls s = Throws TypeError ↔ getPath urls = None.
Proof.
  unfold expand. destruct (getPath urls) as [path|]; [|done].
  unfold bind, read, ret. done.
Qed.

Lemma id_digits_range a j :
  2 ≤ JS.length a → 0 ≤ j →
  ∃ ds, toDigits a (Int j) = Returns (map Int ds) ∧ id_digits a j = map Int ds
        ∧ Forall (in_range (JS.length a)) ds ∧ ds ≠ [].
Proof.
  intros Hn Hj. destruct (toDigits_range a j Hn Hj) as (ds & E & Hr & Hne).
  exists ds. unfold id_digits. by rewrite E.
Qed.

Lemma id_digits_nonneg a j :
  2 ≤ JS.length a → 0 ≤ j ≤ 2 ^ 53 →
  ∃ ds, toDigits a (Int j) = Returns (map Int ds) ∧ id_digits a j = map Int ds
        ∧ toDigitsToId (JS.length a) ds = j
        ∧ Forall (in_range (JS.length a)) ds.
Proof.
  intros Hn Hj. destruct (toDigits_nonneg a j Hn Hj) as (ds & E & Hv & Hr & _).
  exists ds. unfold id_digits. by rewrite E.
Qed.

Lemma id_key_inj a j1 j2 :
  2 ≤ JS.length a → 0 ≤ j1 ≤ 2 ^ 53 → 0 ≤ j2 ≤ 2 ^ 53 →
  id_key a j1 = id_key a j2 → j1 = j2.
Proof.
  intros Hn H1 H2. unfold id_key.
  destruct (id_digits_nonneg a j1 Hn H1) as (d1 & _ & -> & <- & _).
  destruct (id_digits_nonneg a j2 Hn H2) as (d2 & _ & -> & <- & _).
  by intros ->%key_inj.
Qed.

Lemma id_code_inj a j1 j2 :
  NoDup (chars a) → 2 ≤ JS.length a → 0 ≤ j1 ≤ 2 ^ 53 → 0 ≤ j2 ≤ 2 ^ 53 →
  id_code a j1 = id_code a j2 → j1 = j2.
Proof.
  intros Hnd Hn H1 H2. unfold id_code.
  destruct (id_digits_nonneg a j1 Hn H1) as (d1 & _ & -> & <- & Hr1).
  destruct (id_digits_nonneg a j2 Hn H2) as (d2 & _ & -> & <- & Hr2).
  intros E. apply (f_equal (decodeCode a)) in E.
  rewrite !decode_encode in E by done. by apply Int_map_inj in E as ->.
Qed.

Lemma shortener_inv a p i : 0 ≤ i → session_inv a p [] (shortener a p i).
Proof.
  intros Hi. split; simpl; [done|done|done|].
  intros k [v Hv]. by rewrite lookup_empty in Hv.
Qed.

Lemma shorten_inv a p shorts s urll r s' :
  session_inv a p shorts s → shorten urll s = Returns (r, s') →
  session_inv a p (r :: shorts) s'
  ∧ r = p +:+ id_code a (ids s)
  ∧ ids s' = JS.increment (ids s)
  ∧ urlmap s' = <[id_key a (ids s) := urll]> (urlmap s).
Proof.
  intros [Ha Hp Hi Hk] (ds & Hd & -> & ->)%shorten_Returns.
  assert (id_digits a (ids s) = ds) as Hds
    by (unfold id_digits; by rewrite <-Ha, Hd).
  unfold id_code, id_key. rewrite Hds, Ha, Hp. split; [|done].
  split; simpl; [done|done|by apply increment_nonneg|].
  intros k Hsome. destruct (decide (k = JS.key ds)) as [->|Hne].
  - exists (ids s). split; [done|]. unfold id_key, id_code. rewrite Hds.
    split; [done|by left].
  - rewrite lookup_insert_ne in Hsome by done.
    destruct (Hk k Hsome) as (j & Hj & -> & Hin). exists j.
    split; [done|]. split; [done|by right].
Qed.

Lemma nextid_inv a p shorts s id s' :
  session_inv a p shorts s → nextid s = Returns (id, s') →
  session_inv a p shorts s'.
Proof.
  intros [Ha Hp Hi Hk] [-> ->]%nextid_Returns.
  split; simpl; [done|done|by apply increment_nonneg|done].
Qed.

Lemma run_inv a p i shorts s :
  0 ≤ i → run (shortener a p i) shorts s → session_inv a p shorts s.
Proof.
  intros Hi.
  induction 1 as [|shorts s1 urll r s2 _ IH Hsh|shorts s1 urls r s2 _ IH Hex
                  |shorts s1 id s2 _ IH Hid].
  - by apply shortener_inv.
  - by destruct (shorten_inv _ _ _ _ _ _ _ IH Hsh).
  - by apply expand_Returns in Hex as (? & _ & _ & ->).
  - by eapply nextid_inv.
Qed.

Lemma run_app s0 sh1 s1 sh2 s2 :
  run s0 sh1 s1 → run s1 sh2 s2 → run s0 (sh2 ++ sh1) s2.
Proof.
  intros H1.
  induction 1 as [|sh s urll r s' _ IH Hsh|sh s urls r s' _ IH Hex
                  |sh s id s' _ IH Hid].
  - done.
  - simpl. by eapply run_shorten.
  - by eapply run_expand.
  - by eapply run_nextid.
Qed.

(** While the counter is below 2^53 it has advanced by one at each call of
    [shorten] and [nextid]. *)
Lemma run_safe a p i shorts s :
  0 ≤ i → run (shortener a p i) shorts s → ids s < 2 ^ 53 →
  session_safe a p i shorts s.
Proof.
  intros Hi Hrun.
  induction Hrun as [|shorts s1 urll r s2 Hrun IH Hsh|shorts s1 urls r s2 Hrun IH Hex
                     |shorts s1 id s2 Hrun IH Hid]; intros Hlt.
  - split; simpl; [lia| |done].
    intros k [v Hv]. by rewrite lookup_empty in Hv.
  - pose proof (run_inv _ _ _ _ _ Hi Hrun) as Hinv.
    destruct (shorten_inv _ _ _ _ _ _ _ Hinv Hsh) as (_ & -> & Hids & Hmap).
    destruct Hinv as [_ _ H0 _]. rewrite Hids in Hlt.
    pose proof (increment_safe _ H0 Hlt) as Hinc. rewrite Hinc in Hids, Hlt.
    destruct (IH ltac:(lia)) as [Hi1 Hk1 Hs1].
    split; rewrite ?Hmap, ?Hids; [lia| |].
    + intros k Hsome. destruct (decide (k = id_key a (ids s1))) as [->|Hne].
      * exists (ids s1). split; [lia|done].
      * rewrite lookup_insert_ne in Hsome by done.
        destruct (Hk1 k Hsome) as (j & Hj & ->). exists j. split; [lia|done].
    + intros r' [<-|Hin].
      * exists (ids s1). split; [lia|done].
      * destruct (Hs1 r' Hin) as (j & Hj & ->). exists j. split; [lia|done].
  - apply expand_Returns in Hex as (? & _ & _ & ->). by apply IH.
  - pose proof (run_inv _ _ _ _ _ Hi Hrun) as [_ _ H0 _].
    apply nextid_Returns in Hid as [-> ->]. simpl in *.
    pose proof (increment_safe _ H0 Hlt) as Hinc. rewrite Hinc in *.
    destruct (IH ltac:(lia)) as [Hi1 Hk1 Hs1]. split; simpl; [lia| |].
    + intros k Hsome. destruct (Hk1 k Hsome) as (j & Hj & ->).
      exists j. split; [lia|done].
    + intros r' Hin. destruct (Hs1 r' Hin) as (j & Hj & ->).
      exists j. split; [lia|done].
Qed.

(** The counter does not go back while it is below 2^53. *)
Lemma run_ids_mono s shorts s' :
  0 ≤ ids s → run s shorts s' → ids s' < 2 ^ 53 → 0 ≤ ids s ≤ ids s'.
Proof.
  intros H0 Hrun.
  assert (0 ≤ ids s' ∧ (ids s' < 2 ^ 53 → ids s ≤ ids s')) as [? ?]; [|lia].
  induction Hrun as [|shorts s1 urll r s2 Hrun [IH0 IH] Hsh|shorts s1 urls r s2 Hrun IH Hex
                     |shorts s1 id s2 Hrun [IH0 IH] Hid].
  - lia.
  - apply shorten_Returns in Hsh as (? & _ & _ & ->). simpl.
    split; [by apply increment_nonneg|]. intros Hlt.
    pose proof (increment_safe _ IH0 Hlt) as Hinc. rewrite Hinc in Hlt |- *.
    specialize (IH ltac:(lia)). lia.
  - by apply expand_Returns in Hex as (? & _ & _ & ->).
  - apply nextid_Returns in Hid as [-> ->]. simpl.
    split; [by apply increment_nonneg|]. intros Hlt.
    pose proof (increment_safe _ IH0 Hlt) as Hinc. rewrite Hinc in Hlt |- *.
    specialize (IH ltac:(lia)). lia.
Qed.

(** While the counter is below 2^53 the key of the next identifier is not
    in use. *)
Lemma next_key_fresh a p i shorts s :
  valid_config a i → session_safe a p i shorts s → ids s < 2 ^ 53 →
  urlmap s !! id_key a (ids s) = None.
Proof.
  intros [Hnd Hn Hi] [Hids Hk _] Hlt.
  destruct (urlmap s !! id_key a (ids s)) as [v|] eqn:E; [|done].
  destruct (Hk _ (mk_is_Some _ _ E)) as (j & Hj & Hkey).
  apply id_key_inj in Hkey; [lia|done|lia|lia].
Qed.

(** In a valid session [shorten] always returns. *)
Lemma shorten_total a p shorts s urll :
  2 ≤ JS.length a → session_inv a p shorts s →
  ∃ r s', shorten urll s = Returns (r, s').
Proof.
  intros Hn [Ha _ Hids _].
  destruct (toDigits_range a (ids s) Hn Hids) as (ds & Hd & _).
  eexists _, _. apply shorten_Returns. exists (map Int ds).
  rewrite Ha. by split.
Qed.

(** Entries stay as they are while the counter is below 2^53. *)
Lemma run_lookup_mono a p i shorts s shorts' s' k v :
  valid_config a i → run (shortener a p i) shorts s → run s shorts' s' →
  ids s' < 2 ^ 53 →
  urlmap s !! k = Some v → urlmap s' !! k = Some v.
Proof.
  intros Hv H0 H Hlt Hk. pose proof (ids_nonneg _ _ Hv) as Hi.
  induction H as [|sh s1 urll r s2 H1 IH Hsh|sh s1 urls r s2 H1 IH Hex
                  |sh s1 id s2 H1 IH Hid].
  - done.
  - pose proof (run_app _ _ _ _ _ H0 H1) as Hrun1.
    pose proof (run_inv _ _ _ _ _ Hi Hrun1) as Hinv.
    destruct (shorten_inv _ _ _ _ _ _ _ Hinv Hsh) as (_ & _ & Hids & ->).
    destruct Hinv as [_ _ Hnn _]. rewrite Hids in Hlt.
    pose proof (increment_safe _ Hnn Hlt) as Hinc. rewrite Hinc in Hlt.
    rewrite lookup_insert_ne; [apply IH; lia|]. intros <-.
    specialize (IH ltac:(lia)).
    rewrite (next_key_fresh a p i (sh ++ shorts) s1 Hv) in IH; [done| |lia].
    apply run_safe; [done|done|lia].
  - apply expand_Returns in Hex as (? & _ & _ & ->). by apply IH.
  - pose proof (run_inv _ _ _ _ _ Hi (run_app _ _ _ _ _ H0 H1)) as [_ _ Hnn _].
    apply nextid_Returns in Hid as [-> ->]. simpl in *.
    pose proof (increment_safe _ Hnn Hlt) as Hinc. apply IH. lia.
Qed.




(** ** The setup of the test harness *)


Lemma setup_protocol_valid : valid_protocol setup_protocol.
Proof. by exists "http:", "", "short.ly". Qed.

Lemma setup_alphabet_slash_free : free_of "/" setup_alphabet.
Proof. by apply (bool_decide_unpack _). Qed.

Lemma shortly_run1 : run shortly ["http://short.ly/bef"] shortly1.
Proof. by eapply run_shorten; [apply run_nil|vm_compute]. Qed.

Lemma shortly_run2 :
  run shortly ["http://short.ly/beg"; "http://short.ly/bef"] shortly2.
Proof. by eapply run_shorten; [apply shortly_run1|vm_compute]. Qed.

(** At 2^53 the counter does not advance, and every call of [shorten]
    returns the same short URL and writes the same entry. *)
Lemma stuck_shorten urll m :
  shorten urll (Session setup_alphabet setup_protocol (2 ^ 53) m)
  = Returns ("http://short.ly/PpQXn7COi",
             Session setup_alphabet setup_protocol (2 ^ 53)
               (<["41,15,42,49,13,59,28,40,8" := urll]> m)).
Proof.
  apply shorten_Returns.
  exists (map Int [41; 15; 42; 49; 13; 59; 28; 40; 8]).
  split; [|split; [by vm_compute|]].
  - apply (toDigits_fuel_Returns 9). by vm_compute.
  - cbn [ids alphabet protocol urlmap].
    assert (JS.increment (2 ^ 53) = 2 ^ 53) as -> by (by vm_compute).
    assert (JS.key (map Int [41; 15; 42; 49; 13; 59; 28; 40; 8])
            = "41,15,42,49,13,59,28,40,8") as -> by (by vm_compute).
    done.
Qed.

Lemma stuck_valid : valid_config setup_alphabet (2 ^ 53).
Proof. split; [by apply (bool_decide_unpack _)|done|done]. Qed.

(** * Properties of the specification *)

(** C2, as amended.  For a radix of at least two (the alphabet has more
    than one character) and every non-negative identifier up to 2^53,
    [toDigits] returns a sequence of integers, and positional notation in
    base [radix] rebuilds the identifier from it. *)
Theorem toDigits_roundtrip alphabet id :
  2 ≤ JS.length alphabet → 0 ≤ id ≤ 2 ^ 53 →
  ∃ digits, toDigits alphabet (Int id) = Returns (map Int digits)
            ∧ toDigitsToId (JS.length alphabet) digits = id.
Proof.
  intros Hn Hid.
  destruct (toDigits_nonneg alphabet id Hn Hid) as (ds & E & Hv & _).
  by exists ds.
Qed.

Lemma toDigits_roundtrip_witness :
  ∃ digits, toDigits setup_alphabet (Int 4097) = Returns (map Int digits)
            ∧ toDigitsToId (JS.length setup_alphabet) digits = 4097.
Proof.
  apply (toDigits_roundtrip setup_alphabet 4097);
    [|split]; vm_compute; discriminate.
Defined.

(** The claim as stated fails from 2^53 on, where the quotient
    [id / alphabetLength] is rounded: the quotient of 62 * 2^49 + 60 by 62
    rounds up to 2^49 + 1, and the digits returned denote the identifier
    plus 62. *)
Lemma toDigits_roundtrip_counterexample :
  toDigits setup_alphabet (Int (62 * 2 ^ 49 + 60))
  = Returns (map Int [2; 35; 53; 3; 4; 46; 21; 10; 17; 60])
  ∧ toDigitsToId (JS.length setup_alphabet)
      [2; 35; 53; 3; 4; 46; 21; 10; 17; 60]
    = 62 * 2 ^ 49 + 60 + 62.
Proof.
  split; [|by vm_compute]. apply (toDigits_fuel_Returns 10). by vm_compute.
Qed.

(** C3. With an alphabet of unique characters (and more than one of them),
    for every non-negative identifier the characters [shorten] maps the
    digits to are mapped back by [expand] to exactly those digits. *)
Theorem decodeCode_encodeDigits alphabet id :
  NoDup (chars alphabet) → 2 ≤ JS.length alphabet → 0 ≤ id →
  ∃ digits, toDigits alphabet (Int id) = Returns digits
            ∧ decodeCode alphabet (encodeDigits alphabet digits) = digits.
Proof.
  intros Hnd Hn Hid.
  destruct (toDigits_range alphabet id Hn Hid) as (ds & E & Hr & _).
  exists (map Int ds). split; [done|]. by apply decode_encode.
Qed.

Lemma decodeCode_encodeDigits_witness :
  ∃ digits, toDigits setup_alphabet (Int 4097) = Returns digits
            ∧ decodeCode setup_alphabet (encodeDigits setup_alphabet digits)
              = digits.
Proof.
  apply (decodeCode_encodeDigits setup_alphabet 4097).
  - by apply (bool_decide_unpack _).
  - vm_compute; discriminate.
  - vm_compute; discriminate.
Defined.

(** C4. With the 62-character alphabet (lowercase, uppercase, digits), the
    protocol [http://short.ly/] and the starting identifier 4097, the first
    call of [shorten] returns [http://short.ly/bef] and the second one, of
    another long URL, returns [http://short.ly/beg]. *)
Theorem shorten_scenario :
  JS.length setup_alphabet = 62
  ∧ ∃ s1 s2,
      shorten "http://www.google.com" shortly
      = Returns ("http://short.ly/bef", s1)
      ∧ shorten "https://www.cics.umass.edu" s1
        = Returns ("http://short.ly/beg", s2).
Proof.
  split; [done|]. exists shortly1, shortly2. split; by vm_compute.
Qed.

(** C5. With a radix of at least two, [toDigits(0)] is [[0]] and
    [toDigits(radix)] is [[1, 0]]; the body of the loop runs at least once,
    so no result of [toDigits] is empty. *)
Theorem toDigits_zero_and_radix alphabet :
  2 ≤ JS.length alphabet →
  toDigits alphabet (Int 0) = Returns [Int 0]
  ∧ toDigits alphabet (Int (JS.length alphabet)) = Returns [Int 1; Int 0]
  ∧ ∀ id digits, toDigits alphabet id = Returns digits → digits ≠ [].
Proof.
  intros Hn. set (n := JS.length alphabet) in *. split; [|split].
  - apply (toDigits_fuel_Returns 1). unfold toDigits_fuel. fold n.
    rewrite toDigits_loop_nonpos by lia. simpl.
    assert ((n =? 0) = false) as -> by lia. by rewrite Z.rem_0_l by lia.
  - apply (toDigits_fuel_Returns 2). unfold toDigits_fuel. fold n. simpl.
    unfold JS.gt0, JS.rem, JS.floor_div.
    assert ((n =? 0) = false) as -> by lia.
    assert (JS.quot_floor n n = 1) as ->.
    { rewrite quot_floor_nonneg by lia. unfold JS.floor_nearest.
      rewrite Z.div_same, Z.mod_same by lia. done. }
    rewrite Z.rem_same by lia. simpl.
    rewrite quot_floor_exact, Z.rem_small, Z.div_small by lia. done.
  - intros id digits [fuel H]%toDigits_Returns ->.
    apply toDigits_loop_length in H. simpl in H. lia.
Qed.

Lemma toDigits_zero_and_radix_witness :
  toDigits setup_alphabet (Int 0) = Returns [Int 0]
  ∧ toDigits setup_alphabet (Int (JS.length setup_alphabet))
    = Returns [Int 1; Int 0]
  ∧ ∀ id digits, toDigits setup_alphabet id = Returns digits → digits ≠ [].
Proof. apply (toDigits_zero_and_radix setup_alphabet). vm_compute; discriminate. Defined.

(** C6. For every URL with at least four fields delimited by slashes,
    [getPath] returns the fourth one, the field after the third slash; in
    particular it returns [bef] for [http://short.ly/bef]. *)
Theorem getPath_fourth_field :
  (∀ a b c d rest,
     free_of "/" a → free_of "/" b → free_of "/" c → free_of "/" d →
     rest_ok "/" rest →
     getPath (a +:+ "/" +:+ b +:+ "/" +:+ c +:+ "/" +:+ d +:+ rest) = Some d
     ∧ JS.split "/" (a +:+ "/" +:+ b +:+ "/" +:+ c +:+ "/" +:+ d +:+ rest)
       !! 3%nat = Some d)
  ∧ getPath "http://short.ly/bef" = Some "bef".
Proof.
  split; [|done]. intros a b c d rest Ha Hb Hc Hd Hr.
  split; by apply getPath_fields.
Qed.

Lemma getPath_fourth_field_witness :
  getPath ("http:" +:+ "/" +:+ "" +:+ "/" +:+ "short.ly" +:+ "/" +:+ "bef"
           +:+ "/more") = Some "bef".
Proof.
  apply (proj1 getPath_fourth_field "http:" "" "short.ly" "bef" "/more");
    try (by apply (bool_decide_unpack _)).
  right. by exists "more".
Defined.

(** C10. With a radix of at least two [toDigits] returns on every integer.
    On a negative one the body of the loop runs exactly once, and the result
    is the single remainder [id % radix], which has the sign of [id]. *)
Theorem toDigits_terminates alphabet id :
  2 ≤ JS.length alphabet →
  (∃ digits, toDigits alphabet (Int id) = Returns digits)
  ∧ (id < 0 →
     toDigits_fuel 1 alphabet (Int id)
     = Some [Int (Z.rem id (JS.length alphabet))]
     ∧ toDigits alphabet (Int id)
       = Returns [Int (Z.rem id (JS.length alphabet))]
     ∧ - JS.length alphabet < Z.rem id (JS.length alphabet) ≤ 0).
Proof.
  intros Hn. set (n := JS.length alphabet) in *.
  assert (id < 0 → toDigits_fuel 1 alphabet (Int id) = Some [Int (Z.rem id n)])
    as Hneg.
  { intros Hid. unfold toDigits_fuel. fold n.
    rewrite toDigits_loop_nonpos by lia. simpl.
    by assert ((n =? 0) = false) as -> by lia. }
  split.
  - destruct (decide (id < 0)) as [Hid|Hid].
    + eexists. eapply toDigits_fuel_Returns. by apply Hneg.
    + destruct (toDigits_range alphabet id Hn ltac:(lia)) as (ds & E & _).
      by eexists.
  - intros Hid. split; [by apply Hneg|]. split.
    + eapply toDigits_fuel_Returns. by apply Hneg.
    + pose proof (Z.rem_bound_pos_neg id n ltac:(lia) ltac:(lia)). lia.
Qed.

Lemma toDigits_terminates_witness :
  toDigits setup_alphabet (Int (-67)) = Returns [Int (-5)].
Proof.
  refine (proj1 (proj2 (proj2 (toDigits_terminates setup_alphabet (-67) _) _))).
  - vm_compute; discriminate.
  - reflexivity.
Defined.




(** C7. In a session with a valid configuration, for every short URL that
    has a code (a fourth field) and whose code [shorten] never produced in
    the session, [expand] returns [undefined]: it does not throw, and it
    leaves the registry and the counter as they are. *)
Theorem expand_unknown_code a p i shorts s urls code :
  valid_config a i →
  run (shortener a p i) shorts s →
  getPath urls = Some code →
  ¬ In (p +:+ code) shorts →
  expand urls s = Returns (None, s).
Proof.
  intros [Hnd Hn Hi] Hrun Hpath Hnew.
  destruct (run_inv _ _ _ _ _ Hi Hrun) as [Ha Hp Hids Hk].
  apply expand_Returns. exists code. split; [done|]. split; [|done].
  rewrite Ha.
  destruct (urlmap s !! JS.key (decodeCode a code)) as [v|] eqn:E; [|done].
  exfalso. apply Hnew.
  destruct (Hk _ (mk_is_Some _ _ E)) as (j & Hj & Hkey & Hin).
  replace code with (id_code a j); [done|].
  unfold id_key, id_code in *.
  destruct (id_digits_range a j Hn Hj) as (ds & _ & Hds & Hr & _).
  rewrite Hds in *. apply encode_decode; [done|].
  rewrite decodeCode_chars in *.
  rewrite <-(map_map (JS.indexOf a) Int) in *.
  by apply key_inj in Hkey as ->.
Qed.

Lemma expand_unknown_code_witness :
  expand "http://short.ly/bee" shortly2 = Returns (None, shortly2).
Proof.
  apply (expand_unknown_code setup_alphabet setup_protocol startID
           ["http://short.ly/beg"; "http://short.ly/bef"] shortly2
           "http://short.ly/bee" "bee").
  - split; [by apply (bool_decide_unpack _)|vm_compute; discriminate
            |vm_compute; discriminate].
  - apply shortly_run2.
  - reflexivity.
  - by apply (bool_decide_unpack _).
Defined.

(** C8, as amended.  In every session state [shorten] changes nothing but
    the counter, which becomes the double nearest to the counter plus one
    (the counter plus one while it is below 2^53 in absolute value), and
    the registry, into which it writes one entry, and [expand] changes
    nothing at all; the alphabet and the protocol are never assigned.  In a
    session with a valid configuration, while the counter is below 2^53,
    the entries already in the registry are unchanged by [shorten]. *)
Theorem shorten_expand_frame :
  (∀ s urll r s',
     shorten urll s = Returns (r, s') →
     alphabet s' = alphabet s ∧ protocol s' = protocol s
     ∧ ids s' = JS.increment (ids s)
     ∧ (- 2 ^ 53 ≤ ids s < 2 ^ 53 → ids s' = ids s + 1)
     ∧ ∃ key, urlmap s' = <[key := urll]> (urlmap s))
  ∧ (∀ s urls r s', expand urls s = Returns (r, s') → s' = s)
  ∧ (∀ a p i shorts s urll r s',
       valid_config a i → run (shortener a p i) shorts s →
       ids s < 2 ^ 53 →
       shorten urll s = Returns (r, s') →
       ∀ k v, urlmap s !! k = Some v → urlmap s' !! k = Some v).
Proof.
  split; [|split].
  - intros s urll r s' (ds & _ & _ & ->)%shorten_Returns. simpl.
    split; [done|]. split; [done|]. split; [done|].
    split; [apply increment_exact|by eexists].
  - by intros s urls r s' (? & _ & _ & ->)%expand_Returns.
  - intros a p i shorts s urll r s' Hv Hrun Hlt Hsh k v Hk.
    pose proof (ids_nonneg _ _ Hv) as Hi.
    pose proof (run_inv _ _ _ _ _ Hi Hrun) as Hinv.
    destruct (shorten_inv _ _ _ _ _ _ _ Hinv Hsh) as (_ & _ & _ & ->).
    rewrite lookup_insert_ne; [done|]. intros <-.
    rewrite (next_key_fresh a p i shorts s Hv) in Hk; [done| |done].
    by apply run_safe.
Qed.

Lemma shorten_expand_frame_witness :
  (alphabet shortly2 = alphabet shortly1 ∧ protocol shortly2 = protocol shortly1
   ∧ ids shortly2 = JS.increment (ids shortly1)
   ∧ (- 2 ^ 53 ≤ ids shortly1 < 2 ^ 53 → ids shortly2 = ids shortly1 + 1)
   ∧ ∃ key, urlmap shortly2
            = <[key := "https://www.cics.umass.edu"]> (urlmap shortly1))
  ∧ (∀ k v, urlmap shortly1 !! k = Some v → urlmap shortly2 !! k = Some v).
Proof.
  destruct shorten_expand_frame as (Hshorten & _ & Hkeep). split.
  - apply (Hshorten shortly1 "https://www.cics.umass.edu"
             "http://short.ly/beg" shortly2). by vm_compute.
  - apply (Hkeep setup_alphabet setup_protocol startID
             ["http://short.ly/bef"] shortly1 "https://www.cics.umass.edu"
             "http://short.ly/beg" shortly2).
    + split; [by apply (bool_decide_unpack _)|vm_compute; discriminate
              |vm_compute; discriminate].
    + eapply run_shorten; [apply run_nil|by vm_compute].
    + reflexivity.
    + by vm_compute.
Defined.

(** The claim as stated fails at the counter 2^53, in a session with a
    valid configuration: [shorten] leaves the counter where it is, and the
    entry of the first long URL is replaced by the second.  It also fails
    on session states of a configuration outside the data model: from the
    starting identifier -3 with the alphabet [ab], the third [shorten]
    replaces the entry of the first. *)
Lemma shorten_expand_frame_counterexample :
  (valid_config setup_alphabet (2 ^ 53)
   ∧ run (shortener setup_alphabet setup_protocol (2 ^ 53))
       ["http://short.ly/PpQXn7COi"] stuck_session1
   ∧ shorten "https://www.cics.umass.edu" stuck_session1
     = Returns ("http://short.ly/PpQXn7COi", stuck_session2)
   ∧ ids stuck_session2 = ids stuck_session1
   ∧ urlmap stuck_session1 !! "41,15,42,49,13,59,28,40,8"
     = Some "http://www.google.com"
   ∧ urlmap stuck_session2 !! "41,15,42,49,13,59,28,40,8"
     = Some "https://www.cics.umass.edu")
  ∧ (run (shortener "ab" setup_protocol (-3))
       ["http://short.ly/a"; "http://short.ly/"] negative_session2
     ∧ shorten "https://www.youtube.com" negative_session2
       = Returns ("http://short.ly/", negative_session3)
     ∧ urlmap negative_session2 !! "-1" = Some "http://www.google.com"
     ∧ urlmap negative_session3 !! "-1" = Some "https://www.youtube.com").
Proof.
  split.
  - split; [apply stuck_valid|]. split; [|split; [|by vm_compute]].
    + eapply run_shorten; [apply run_nil|apply stuck_shorten].
    + unfold stuck_session1, stuck_session2. rewrite stuck_shorten.
      by rewrite insert_insert_eq.
  - split; [|by vm_compute].
    apply (run_shorten _ _
             (Session "ab" setup_protocol (-2)
                (<["-1" := "http://www.google.com"]> ∅))
             "https://www.cics.umass.edu"); [|by vm_compute].
    apply (run_shorten _ _ (shortener "ab" setup_protocol (-3))
             "http://www.google.com"); [apply run_nil|by vm_compute].
Qed.

(** C9, as amended.  In a session with a valid configuration, while the
    counter is below 2^53, every call of [shorten] returns and adds its
    entry under a key that was not in the registry; entries are never
    changed or removed afterwards; shortening the same long URL twice
    yields two different short URLs and two entries under different keys;
    and different identifiers up to 2^53 have different keys. *)
Theorem registry_entries_created_once a p i shorts s :
  valid_config a i → run (shortener a p i) shorts s → ids s < 2 ^ 53 →
  (∀ urll, ∃ r s' key,
     shorten urll s = Returns (r, s')
     ∧ urlmap s !! key = None
     ∧ urlmap s' = <[key := urll]> (urlmap s))
  ∧ (∀ shorts' s' k v,
       run s shorts' s' → ids s' < 2 ^ 53 →
       urlmap s !! k = Some v → urlmap s' !! k = Some v)
  ∧ (∀ urll r1 s1 shorts' s2 r2 s3,
       shorten urll s = Returns (r1, s1) → run s1 shorts' s2 →
       ids s2 < 2 ^ 53 →
       shorten urll s2 = Returns (r2, s3) →
       r1 ≠ r2
       ∧ ∃ k1 k2, k1 ≠ k2 ∧ urlmap s3 !! k1 = Some urll
                  ∧ urlmap s3 !! k2 = Some urll)
  ∧ (∀ j1 j2, 0 ≤ j1 ≤ 2 ^ 53 → 0 ≤ j2 ≤ 2 ^ 53 → j1 ≠ j2 →
              id_key a j1 ≠ id_key a j2).
Proof.
  intros Hv Hrun Hlt. destruct (Hv) as [Hnd Hn Hi].
  pose proof (run_inv _ _ _ _ _ Hi Hrun) as Hinv.
  split; [|split; [|split]]; cycle 3.
  { intros j1 j2 H1 H2 Hne E. by apply id_key_inj in E. }
  - intros urll.
    destruct (shorten_total a p shorts s urll Hn Hinv) as (r & s' & Hsh).
    destruct (shorten_inv _ _ _ _ _ _ _ Hinv Hsh) as (_ & _ & _ & Hmap).
    exists r, s', (id_key a (ids s)). split; [done|]. split; [|done].
    eapply next_key_fresh; [done|by apply run_safe|done].
  - intros shorts' s' k v Hrun' Hlt' Hk. by eapply run_lookup_mono.
  - intros urll r1 s1 shorts' s2 r2 s3 Hsh1 Hrun' Hlt2 Hsh2.
    destruct (shorten_inv _ _ _ _ _ _ _ Hinv Hsh1)
      as (Hinv1 & -> & Hids1 & Hmap1).
    pose proof (run_shorten _ _ _ _ _ _ Hrun Hsh1) as Hrun1.
    pose proof (run_app _ _ _ _ _ Hrun1 Hrun') as Hrun2.
    pose proof (run_inv _ _ _ _ _ Hi Hrun2) as Hinv2.
    destruct (shorten_inv _ _ _ _ _ _ _ Hinv2 Hsh2)
      as (_ & -> & _ & Hmap2).
    destruct Hinv as [_ _ H0 _].
    rewrite (increment_exact (ids s)) in Hids1 by lia.
    assert (ids s < ids s2) as Hlt'.
    { pose proof (run_ids_mono s1 shorts' s2 ltac:(lia) Hrun' Hlt2). lia. }
    split.
    + intros E%(inj (String.append p)).
      apply id_code_inj in E; [lia|done|done|lia|lia].
    + exists (id_key a (ids s)), (id_key a (ids s2)). split; [|split].
      * intros E. apply id_key_inj in E; [lia|done|lia|lia].
      * rewrite Hmap2, lookup_insert_ne.
        -- eapply run_lookup_mono; [done|exact Hrun1|exact Hrun'|done|].
           rewrite Hmap1. apply lookup_insert_eq.
        -- intros E. apply id_key_inj in E; [lia|done|lia|lia].
      * rewrite Hmap2. apply lookup_insert_eq.
Qed.

Lemma registry_entries_created_once_witness :
  ∃ r s' key,
    shorten "http://www.google.com" shortly1 = Returns (r, s')
    ∧ urlmap shortly1 !! key = None
    ∧ urlmap s' = <[key := "http://www.google.com"]> (urlmap shortly1).
Proof.
  refine (proj1 (registry_entries_created_once setup_alphabet setup_protocol
                   startID ["http://short.ly/bef"] shortly1 _ _ _)
            "http://www.google.com").
  - split; [by apply (bool_decide_unpack _)|vm_compute; discriminate
            |vm_compute; discriminate].
  - eapply run_shorten; [apply run_nil|by vm_compute].
  - reflexivity.
Defined.

(** The claim as stated fails at the counter 2^53, in a session with a
    valid configuration: shortening the same long URL twice returns the
    same short URL, under a key that is already in the registry, and a
    later [shorten] replaces the entry. *)
Lemma registry_entries_created_once_counterexample :
  valid_config setup_alphabet (2 ^ 53)
  ∧ shorten "http://www.google.com"
      (shortener setup_alphabet setup_protocol (2 ^ 53))
    = Returns ("http://short.ly/PpQXn7COi", stuck_session1)
  ∧ shorten "http://www.google.com" stuck_session1
    = Returns ("http://short.ly/PpQXn7COi", stuck_session1)
  ∧ size (urlmap stuck_session1) = 1%nat
  ∧ shorten "https://www.cics.umass.edu" stuck_session1
    = Returns ("http://short.ly/PpQXn7COi", stuck_session2)
  ∧ size (urlmap stuck_session2) = 1%nat.
Proof.
  split; [apply stuck_valid|]. split; [apply stuck_shorten|].
  unfold stuck_session1, stuck_session2. rewrite !stuck_shorten.
  rewrite !insert_insert_eq. repeat split; by vm_compute.
Qed.

(** * Further properties of the code *)

(** ** Lemmas on digit sequences *)

Lemma lsd_value_app n l1 l2 :
  lsd_value n (l1 ++ l2)
  = lsd_value n l1 + n ^ Z.of_nat (List.length l1) * lsd_value n l2.
Proof.
  induction l1 as [|d l1 IH].
  - simpl. lia.
  - cbn [app lsd_value List.length]. rewrite IH, Nat2Z.inj_succ, Z.pow_succ_r by lia.
    lia.
Qed.

Lemma lsd_value_bound n l :
  1 ≤ n → Forall (in_range n) l →
  0 ≤ lsd_value n l < n ^ Z.of_nat (List.length l).
Proof.
  intros Hn. induction 1 as [|d l [Hd0 Hd1] _ IH].
  - simpl. lia.
  - cbn [lsd_value List.length]. rewrite Nat2Z.inj_succ, Z.pow_succ_r by lia.
    nia.
Qed.

Lemma lsd_value_unique n l l' :
  1 ≤ n → List.length l = List.length l' →
  Forall (in_range n) l → Forall (in_range n) l' →
  lsd_value n l = lsd_value n l' → l = l'.
Proof.
  intros Hn. revert l'.
  induction l as [|d l IH]; intros [|d' l'] Hlen Hr Hr' E; simplify_eq/=; [done|].
  apply Forall_cons in Hr as [[Hd0 Hd1] Hr].
  apply Forall_cons in Hr' as [[Hd0' Hd1'] Hr'].
  assert (lsd_value n l = lsd_value n l') as Hv by nia.
  assert (d = d') as -> by nia.
  f_equal. by apply IH.
Qed.

(** On a positive identifier the last remainder pushed is not zero. *)
Lemma toDigits_loop_leading n fuel z acc :
  2 ≤ n → 0 < z ≤ 2 ^ 53 → (Z.to_nat z < fuel)%nat →
  ∃ l d, toDigits_loop fuel n (Int z) acc
         = Some (rev (acc ++ map Int (l ++ [d])))
         ∧ lsd_value n (l ++ [d]) = z
         ∧ Forall (in_range n) (l ++ [d]) ∧ 0 < d.
Proof.
  intros Hn. revert z acc.
  induction fuel as [|fuel IH]; intros z acc Hz Hfuel; [lia|].
  simpl. assert ((n =? 0) = false) as -> by lia.
  rewrite Z.rem_mod_nonneg, quot_floor_exact by lia.
  pose proof (Z.mod_pos_bound z n ltac:(lia)) as Hmod.
  pose proof (Z.div_mod z n ltac:(lia)) as Hdiv.
  unfold JS.gt0. destruct (decide (0 < z / n)) as [Hq|Hq].
  - assert ((0 <? z / n) = true) as -> by lia.
    assert (z / n < z) by (apply Z.div_lt; lia).
    destruct (IH (z / n) (acc ++ [Int (z `mod` n)])) as (l & d & Hl & Hv & Hr & Hd);
      [lia|lia|].
    exists (z `mod` n :: l), d. rewrite Hl. simpl. rewrite <-app_assoc. simpl.
    split; [done|]. split; [lia|]. split; [|done]. by constructor.
  - assert ((0 <? z / n) = false) as -> by lia.
    assert (z / n = 0) by (pose proof (Z.div_pos z n); lia).
    exists [], (z `mod` n). simpl.
    split; [done|]. split; [lia|]. split; [|lia]. constructor; [done|constructor].
Qed.

Lemma canonical_bounds n ds :
  2 ≤ n → canonical n ds →
  0 ≤ toDigitsToId n ds < n ^ Z.of_nat (List.length ds)
  ∧ (ds = [0] ∨ n ^ (Z.of_nat (List.length ds) - 1) ≤ toDigitsToId n ds).
Proof.
  intros Hn [Hr Hlead].
  assert (toDigitsToId n ds = lsd_value n (rev ds)) as ->
    by (by rewrite <-toDigitsToId_rev, rev_involutive).
  split.
  { rewrite <-(length_rev ds). apply lsd_value_bound; [lia|by apply Forall_rev]. }
  destruct ds as [|d ds]; [done|].
  cbn [rev]. rewrite lsd_value_app. simpl lsd_value.
  rewrite length_rev. cbn [List.length].
  replace (Z.of_nat (S (List.length ds)) - 1) with (Z.of_nat (List.length ds)) by lia.
  apply Forall_cons in Hr as [[Hd0 Hd1] Hr].
  pose proof (lsd_value_bound n (rev ds) ltac:(lia) ltac:(by apply Forall_rev)) as Hb.
  assert (0 < n ^ Z.of_nat (List.length ds)) by (apply Z.pow_pos_nonneg; lia).
  destruct ds as [|d' ds].
  - destruct (decide (d = 0)) as [->|Hne]; [by left|right]. simpl. lia.
  - right. nia.
Qed.

Lemma canonical_unique n ds ds' :
  2 ≤ n → canonical n ds → canonical n ds' →
  toDigitsToId n ds = toDigitsToId n ds' → ds = ds'.
Proof.
  intros Hn Hc Hc' E.
  destruct (canonical_bounds n ds Hn Hc) as [[H0 H1] H2].
  destruct (canonical_bounds n ds' Hn Hc') as [[H0' H1'] H2'].
  assert (List.length ds = List.length ds') as Hlen.
  { assert (∀ k : nat, 0 < n ^ Z.of_nat k) as Hpos
      by (intros k; apply Z.pow_pos_nonneg; lia).
    destruct H2 as [->|H2], H2' as [->|H2']; [done|..].
    - unfold toDigitsToId at 1 in E. simpl in E.
      destruct ds' as [|d' [|]]; [by destruct Hc'|..].
      + done.
      + exfalso. cbn [List.length] in H2'.
        pose proof (Hpos (S (List.length l))).
        replace (Z.of_nat (S (S (List.length l))) - 1)
          with (Z.of_nat (S (List.length l))) in H2' by lia. lia.
    - unfold toDigitsToId at 2 in E. simpl in E.
      destruct ds as [|d [|]]; [by destruct Hc|..].
      + done.
      + exfalso. cbn [List.length] in H2.
        pose proof (Hpos (S (List.length l))).
        replace (Z.of_nat (S (S (List.length l))) - 1)
          with (Z.of_nat (S (List.length l))) in H2 by lia. lia.
    - rewrite E in *.
      destruct (Nat.lt_trichotomy (List.length ds) (List.length ds'))
        as [Hlt|[Heq|Hlt]]; [|done|]; exfalso.
      + assert (n ^ Z.of_nat (List.length ds)
                ≤ n ^ (Z.of_nat (List.length ds') - 1))
          by (apply Z.pow_le_mono_r; lia). lia.
      + assert (n ^ Z.of_nat (List.length ds')
                ≤ n ^ (Z.of_nat (List.length ds) - 1))
          by (apply Z.pow_le_mono_r; lia). lia. }
  rewrite <-(rev_involutive ds), <-(rev_involutive ds').
  f_equal. apply (lsd_value_unique n); [lia|by rewrite !length_rev| | |].
  - apply Forall_rev, Hc.
  - apply Forall_rev, Hc'.
  - by rewrite <-!toDigitsToId_rev, !rev_involutive.
Qed.

Lemma toDigits_canonical_digits alphabet id :
  2 ≤ JS.length alphabet → 0 ≤ id ≤ 2 ^ 53 →
  ∃ ds, toDigits alphabet (Int id) = Returns (map Int ds)
        ∧ toDigitsToId (JS.length alphabet) ds = id
        ∧ canonical (JS.length alphabet) ds.
Proof.
  intros Hn Hid. set (n := JS.length alphabet) in *.
  destruct (decide (id = 0)) as [->|Hne].
  - exists [0]. split; [|split; [done|]].
    + apply (toDigits_fuel_Returns 1). unfold toDigits_fuel. fold n.
      rewrite toDigits_loop_nonpos by lia. simpl.
      assert ((n =? 0) = false) as -> by lia. by rewrite Z.rem_0_l by lia.
    + split; [|done]. constructor; [split; lia|constructor].
  - destruct (toDigits_loop_leading n (S (Z.to_nat id)) id [] Hn)
      as (l & d & Hl & Hv & Hr & Hd); [lia|lia|].
    exists (rev (l ++ [d])). split; [|split; [|split]].
    + apply (toDigits_fuel_Returns (S (Z.to_nat id))). unfold toDigits_fuel.
      fold n. rewrite Hl. simpl. by rewrite map_rev.
    + by rewrite toDigitsToId_rev.
    + by apply Forall_rev.
    + rewrite rev_app_distr. simpl. destruct (rev l); [done|lia].
Qed.

(** ** Lemmas on loops that do not end *)

Lemma toDigits_RangeError_iff alphabet id :
  toDigits alphabet id = Throws RangeError ↔
  id = Infinity false ∨ ∃ z, id = Int z ∧ 0 < z ∧ JS.length alphabet ≤ 1.
Proof.
  pose proof (length_nonneg alphabet) as Hlen.
  split.
  - intros Hthrow. pose proof (proj1 (toDigits_RangeError _ _) Hthrow) as Hnone.
    destruct id as [z| |[]]; [|exfalso..|by left].
    + destruct (decide (0 < z)) as [Hz|Hz].
      * destruct (decide (JS.length alphabet ≤ 1)) as [Hn|Hn].
        { right. by exists z. }
        exfalso.
        destruct (toDigits_range alphabet z ltac:(lia) ltac:(lia)) as (ds & E & _).
        congruence.
      * exfalso. specialize (Hnone 1%nat). unfold toDigits_fuel in Hnone.
        by rewrite toDigits_loop_nonpos in Hnone by lia.
    + by specialize (Hnone 1%nat).
    + specialize (Hnone 1%nat). unfold toDigits_fuel in Hnone. simpl in Hnone.
      unfold JS.gt0, JS.floor_div in Hnone.
      assert ((JS.length alphabet <? 0) = false) as Hn by lia.
      by rewrite Hn in Hnone.
  - intros [->|(z & -> & Hz & Hn)]; apply toDigits_RangeError; intros fuel;
      unfold toDigits_fuel.
    + by apply toDigits_loop_inf.
    + assert (JS.length alphabet = 0 ∨ JS.length alphabet = 1) as [->| ->] by lia.
      * by apply toDigits_loop_radix0.
      * by apply toDigits_loop_radix1.
Qed.

(** ** Lemmas on fields and slashes *)

Lemma split_length sep s :
  List.length (JS.split sep s) = S (count_occ ascii_dec (chars s) sep).
Proof.
  induction s as [|c s IH]; [done|]. simpl.
  destruct (Ascii.eqb_spec c sep) as [->|Hne].
  - destruct (ascii_dec sep sep); [|done]. simpl. by rewrite IH.
  - destruct (ascii_dec c sep); [done|].
    destruct (JS.split sep s); [done|]. by rewrite <-IH.
Qed.

(** A string is its first field, alone or followed by a separator and the
    string of the other fields. *)
Lemma split_head sep s :
  ∃ f, free_of sep f
       ∧ ((s = f ∧ JS.split sep s = [f])
          ∨ ∃ r, s = f +:+ String sep r ∧ JS.split sep s = f :: JS.split sep r).
Proof.
  induction s as [|c s (f & Hf & IH)].
  - exists "". split; [done|]. by left.
  - simpl. destruct (Ascii.eqb_spec c sep) as [->|Hne].
    + exists "". split; [done|]. right. by exists s.
    + exists (String c f). split; [by apply free_of_cons|].
      destruct IH as [[-> ->]|(r & -> & ->)]; [by left|].
      right. by exists r.
Qed.

Lemma getPath_None_slashes url : getPath url = None ↔ (slashes url < 3)%nat.
Proof.
  unfold getPath, slashes. rewrite lookup_ge_None, split_length. lia.
Qed.

Lemma getPath_decompose url d :
  getPath url = Some d →
  ∃ a b c rest,
    url = a +:+ "/" +:+ b +:+ "/" +:+ c +:+ "/" +:+ d +:+ rest
    ∧ free_of "/" a ∧ free_of "/" b ∧ free_of "/" c ∧ free_of "/" d
    ∧ rest_ok "/" rest.
Proof.
  unfold getPath. intros H.
  destruct (split_head "/" url) as (a & Ha & [[_ E]|(r1 & -> & E)]);
    rewrite E in H; [done|]. simpl in H.
  destruct (split_head "/" r1) as (b & Hb & [[_ E1]|(r2 & -> & E1)]);
    rewrite E1 in H; [done|]. simpl in H.
  destruct (split_head "/" r2) as (c & Hc & [[_ E2]|(r3 & -> & E2)]);
    rewrite E2 in H; [done|]. simpl in H.
  destruct (split_head "/" r3) as (d' & Hd & [[-> E3]|(r4 & -> & E3)]);
    rewrite E3 in H; injection H as ->.
  - exists a, b, c, "". rewrite str_app_nil_r. repeat split; try done. by left.
  - exists a, b, c, (String "/" r4). repeat split; try done. right. by eexists.
Qed.

(** ** Lemmas on decoding *)

Lemma length_chars s : List.length (chars s) = String.length s.
Proof. induction s as [|c s IH]; [done|]. simpl. by rewrite IH. Qed.

Lemma indexOf_from_In s c i :
  In c (chars s) → i ≤ JS.indexOf_from s c i.
Proof.
  revert i. induction s as [|c' s IH]; intros i; simpl; [done|].
  destruct (Ascii.eqb_spec c' c) as [->|Hne]; [lia|].
  intros [?|Hin]; [done|]. specialize (IH (i + 1) Hin). lia.
Qed.

Lemma indexOf_absent a c : JS.indexOf a c = -1 ↔ ¬ In c (chars a).
Proof.
  unfold JS.indexOf. split.
  - intros E Hin. apply (indexOf_from_In a c 0) in Hin. lia.
  - intros Hnot. destruct (decide (JS.indexOf_from a c 0 = -1)) as [|Hne]; [done|].
    exfalso. apply Hnot.
    destruct (indexOf_from_found a c 0 Hne ltac:(lia)) as [_ Hg].
    by eapply get_In.
Qed.

(** [indexOf] reports the first position of the character. *)
Lemma indexOf_from_first s c i (k : nat) :
  Z.of_nat k < JS.indexOf_from s c i - i → String.get k s ≠ Some c.
Proof.
  revert i k. induction s as [|c' s IH]; intros i k; simpl; [done|].
  destruct (Ascii.eqb_spec c' c) as [->|Hne]; [lia|].
  destruct k as [|k]; [congruence|]. intros H. apply (IH (i + 1)). lia.
Qed.

Lemma str_app_single c t : String c "" +:+ t = String c t.
Proof. done. Qed.

Lemma encodeDigits_in_range alphabet ds :
  Forall (in_range (JS.length alphabet)) ds →
  String.length (encodeDigits alphabet (map Int ds)) = List.length ds
  ∧ ∀ c, In c (chars (encodeDigits alphabet (map Int ds))) → In c (chars alphabet).
Proof.
  induction 1 as [|d ds Hd _ [IHlen IHin]]; [done|].
  simpl map. rewrite encodeDigits_cons.
  destruct (charAtZ_get alphabet d Hd) as (c & Hc & Hg). simpl JS.charAt.
  rewrite Hc, str_app_single. simpl. split; [by rewrite IHlen|].
  intros c' [<-|Hin]; [by eapply get_In|by apply IHin].
Qed.

(** ** Further lemmas *)

Lemma chars_lookup s (k : nat) : chars s !! k = String.get k s.
Proof.
  revert k. induction s as [|c s IH]; intros [|k]; simpl; by try done.
Qed.

Lemma toDigits_negative alphabet z :
  1 ≤ JS.length alphabet → z < 0 →
  toDigits alphabet (Int z) = Returns [Int (Z.rem z (JS.length alphabet))].
Proof.
  intros Hn Hz. apply (toDigits_fuel_Returns 1). unfold toDigits_fuel.
  rewrite toDigits_loop_nonpos by lia. simpl.
  by assert ((JS.length alphabet =? 0) = false) as -> by lia.
Qed.

Lemma rem_negative_shift z n : 0 < n → z < 0 → Z.rem (z - n) n = Z.rem z n.
Proof.
  intros Hn Hz.
  assert (∀ a, a ≤ 0 → Z.rem a n = - ((- a) `mod` n)) as Hrem.
  { intros a Ha. rewrite <-(Z.opp_involutive a) at 1.
    by rewrite Z.rem_opp_l', Z.rem_mod_nonneg by lia. }
  rewrite !Hrem by lia. f_equal.
  replace (- (z - n)) with (- z + 1 * n) by lia. apply Z_mod_plus_full.
Qed.

(** ** The properties *)

(** X1. While the results stay within 2^53 in absolute value, [n] calls
    of [nextid] from the counter [S] return [S], [S+1], ..., [S+n-1] in
    this order and leave the counter at [S+n]; nothing else of the session
    changes. *)
Theorem nextid_sequence n s :
  - 2 ^ 53 ≤ ids s → ids s + Z.of_nat n ≤ 2 ^ 53 →
  nextid_times n s
  = Returns (map (λ k, ids s + Z.of_nat k) (seq 0 n),
             Session (alphabet s) (protocol s) (ids s + Z.of_nat n) (urlmap s)).
Proof.
  revert s. induction n as [|n IH]; intros s Hlo Hhi.
  - destruct s. simpl. unfold ret. by rewrite Z.add_0_r.
  - cbn [nextid_times]. unfold bind at 1. unfold nextid at 1.
    unfold bind, read, write, ret.
    rewrite (increment_exact (ids s)) by lia.
    rewrite IH by (simpl; lia). simpl. f_equal. f_equal.
    + f_equal; [lia|]. rewrite <-seq_shift, map_map. apply map_ext.
      intros k. lia.
    + f_equal. lia.
Qed.

Lemma nextid_sequence_witness :
  nextid_times 3 shortly
  = Returns (map (λ k, ids shortly + Z.of_nat k) (seq 0 3),
             Session (alphabet shortly) (protocol shortly)
               (ids shortly + Z.of_nat 3) (urlmap shortly)).
Proof. apply (nextid_sequence 3 shortly); vm_compute; discriminate. Defined.

(** X16. At the counter 2^53 the sum [ids + 1] rounds back to 2^53: every
    call of [nextid] returns 2^53 and leaves the session as it is. *)
Theorem nextid_stuck n a p m :
  nextid_times n (Session a p (2 ^ 53) m)
  = Returns (repeat (2 ^ 53) n, Session a p (2 ^ 53) m).
Proof.
  induction n as [|n IH]; [done|].
  cbn [nextid_times]. unfold bind at 1. unfold nextid at 1.
  unfold bind, read, write, ret. cbn [ids alphabet protocol urlmap].
  assert (JS.increment (2 ^ 53) = 2 ^ 53) as -> by (by vm_compute).
  by rewrite IH.
Qed.

(** X2. For a radix of at least two and a non-negative identifier up to
    2^53, the digits [toDigits] returns lie in [0, radix), the first one is
    not zero unless the identifier is zero, and their number [L] is the one
    of the base-[radix] numeral: [radix^(L-1) <= id < radix^L] for a
    positive identifier. *)
Theorem toDigits_canonical alphabet id :
  2 ≤ JS.length alphabet → 0 ≤ id ≤ 2 ^ 53 →
  ∃ digits,
    toDigits alphabet (Int id) = Returns (map Int digits)
    ∧ canonical (JS.length alphabet) digits
    ∧ id < JS.length alphabet ^ Z.of_nat (List.length digits)
    ∧ (0 < id → JS.length alphabet ^ (Z.of_nat (List.length digits) - 1) ≤ id).
Proof.
  intros Hn Hid.
  destruct (toDigits_canonical_digits alphabet id Hn Hid) as (ds & E & Hv & Hc).
  destruct (canonical_bounds _ ds Hn Hc) as [[_ Hub] Hlb]. rewrite Hv in *.
  exists ds. repeat split; try done; try apply Hc.
  intros Hpos. destruct Hlb as [->|Hlb]; [|done].
  unfold toDigitsToId in Hv. simpl in Hv. lia.
Qed.

Lemma toDigits_canonical_witness :
  ∃ digits,
    toDigits setup_alphabet (Int 4097) = Returns (map Int digits)
    ∧ canonical (JS.length setup_alphabet) digits
    ∧ 4097 < JS.length setup_alphabet ^ Z.of_nat (List.length digits)
    ∧ (0 < 4097 →
       JS.length setup_alphabet ^ (Z.of_nat (List.length digits) - 1) ≤ 4097).
Proof.
  apply (toDigits_canonical setup_alphabet 4097);
    [|split]; vm_compute; discriminate.
Defined.



(** X4. For a radix of at least two, [toDigits] returns every digit
    sequence without a leading zero that denotes an identifier up to 2^53
    on that identifier: identifiers up to 2^53 and such sequences
    correspond one to one. *)
Theorem toDigits_of_digits alphabet digits :
  2 ≤ JS.length alphabet → canonical (JS.length alphabet) digits →
  toDigitsToId (JS.length alphabet) digits ≤ 2 ^ 53 →
  toDigits alphabet (Int (toDigitsToId (JS.length alphabet) digits))
  = Returns (map Int digits).
Proof.
  intros Hn Hc Hle.
  destruct (canonical_bounds _ digits Hn Hc) as [[H0 _] _].
  destruct (toDigits_canonical_digits alphabet _ Hn (conj H0 Hle))
    as (ds & E & Hv & Hc').
  rewrite E. f_equal. f_equal. by apply (canonical_unique (JS.length alphabet)).
Qed.

Lemma toDigits_of_digits_witness :
  toDigits setup_alphabet (Int (toDigitsToId (JS.length setup_alphabet) [1; 4; 5]))
  = Returns (map Int [1; 4; 5]).
Proof.
  apply (toDigits_of_digits setup_alphabet [1; 4; 5]).
  - vm_compute; discriminate.
  - split; [|discriminate].
    repeat constructor; vm_compute; discriminate.
  - vm_compute; discriminate.
Defined.

(** X5. [getPath] returns [d] exactly on the URLs [a/b/c/d] followed by
    nothing or by a slash and more, with no slash in [a], [b], [c] and [d];
    it returns [undefined] exactly on the URLs with fewer than three
    slashes. *)
Theorem getPath_exactly url :
  (∀ d, getPath url = Some d ↔
        ∃ a b c rest,
          url = a +:+ "/" +:+ b +:+ "/" +:+ c +:+ "/" +:+ d +:+ rest
          ∧ free_of "/" a ∧ free_of "/" b ∧ free_of "/" c ∧ free_of "/" d
          ∧ rest_ok "/" rest)
  ∧ (getPath url = None ↔ (slashes url < 3)%nat).
Proof.
  split; [|apply getPath_None_slashes]. intros d. split.
  - apply getPath_decompose.
  - intros (a & b & c & rest & -> & Ha & Hb & Hc & Hd & Hr).
    by apply getPath_fields.
Qed.

Lemma getPath_exactly_witness :
  getPath "http://short.ly" = None.
Proof.
  apply (proj2 (proj2 (getPath_exactly "http://short.ly"))). vm_compute. lia.
Defined.

(** X6. [expand] never loops: it throws a [TypeError] exactly on the URLs
    with fewer than three slashes, and on every other URL it returns,
    leaving the session as it is. *)
Theorem expand_throws_exactly urls s :
  (expand urls s = Throws TypeError ↔ (slashes urls < 3)%nat)
  ∧ ((3 ≤ slashes urls)%nat → ∃ r, expand urls s = Returns (r, s))
  ∧ expand urls s ≠ Diverges.
Proof.
  rewrite expand_Throws, getPath_None_slashes. split; [done|]. split.
  - intros H. destruct (getPath urls) as [path|] eqn:E.
    + eexists. apply expand_Returns. by exists path.
    + apply getPath_None_slashes in E. lia.
  - unfold expand. by destruct (getPath urls).
Qed.

Lemma expand_throws_exactly_witness :
  ∃ r, expand "http://short.ly/zzz" shortly = Returns (r, shortly).
Proof.
  apply (proj1 (proj2 (expand_throws_exactly "http://short.ly/zzz" shortly))).
  vm_compute. lia.
Defined.

(** X7. [expand] looks at the fourth field of the URL only: two URLs with
    the same fourth field, whatever their scheme, host and later fields,
    expand alike. *)
Theorem expand_fourth_field_only s a b c a' b' c' d rest rest' :
  free_of "/" a → free_of "/" b → free_of "/" c →
  free_of "/" a' → free_of "/" b' → free_of "/" c' →
  free_of "/" d → rest_ok "/" rest → rest_ok "/" rest' →
  expand (a +:+ "/" +:+ b +:+ "/" +:+ c +:+ "/" +:+ d +:+ rest) s
  = expand (a' +:+ "/" +:+ b' +:+ "/" +:+ c' +:+ "/" +:+ d +:+ rest') s.
Proof.
  intros Ha Hb Hc Ha' Hb' Hc' Hd Hr Hr'. unfold expand.
  by rewrite !getPath_fields.
Qed.

Lemma expand_fourth_field_only_witness :
  expand ("ftp:" +:+ "/" +:+ "x" +:+ "/" +:+ "other.host" +:+ "/" +:+ "bef"
          +:+ "/more") shortly1
  = expand ("http:" +:+ "/" +:+ "" +:+ "/" +:+ "short.ly" +:+ "/" +:+ "bef"
            +:+ "") shortly1.
Proof.
  apply (expand_fourth_field_only shortly1);
    try (by apply (bool_decide_unpack _)).
  - right. by exists "more".
  - by left.
Defined.

(** X8. For a code made of characters of the alphabet, encoding the digits
    it decodes to gives the code back, even when the alphabet repeats a
    character. *)
Theorem encodeDigits_decodeCode alphabet path :
  (∀ c, In c (chars path) → In c (chars alphabet)) →
  encodeDigits alphabet (decodeCode alphabet path) = path.
Proof.
  rewrite decodeCode_chars. intros Hin. apply chars_inj.
  revert Hin. generalize (chars path) as cs. clear path.
  induction cs as [|c cs IH]; intros Hin; [done|].
  simpl map. rewrite encodeDigits_cons, charAt_indexOf, str_app_single.
  - simpl. f_equal. apply IH. intros c' Hc'. apply Hin. by right.
  - unfold JS.indexOf. apply indexOf_from_In. apply Hin. by left.
Qed.

Lemma encodeDigits_decodeCode_witness :
  encodeDigits setup_alphabet (decodeCode setup_alphabet "bef") = "bef".
Proof.
  apply (encodeDigits_decodeCode setup_alphabet "bef").
  intros c Hin. simpl in Hin.
  destruct Hin as [<-|[<-|[<-|[]]]]; vm_compute; tauto.
Defined.

(** X9. [expand]'s loop decodes a path character by character: the result
    is as long as the path, a character outside the alphabet gives -1, and
    a character of the alphabet gives its first position in it. *)
Theorem decodeCode_positions alphabet path :
  List.length (decodeCode alphabet path) = String.length path
  ∧ ∀ (k : nat) c,
      String.get k path = Some c →
      ∃ j, decodeCode alphabet path !! k = Some (Int j)
           ∧ ((j = -1 ∧ ¬ In c (chars alphabet))
              ∨ (0 ≤ j < JS.length alphabet
                 ∧ String.get (Z.to_nat j) alphabet = Some c
                 ∧ ∀ k' : nat, (k' < Z.to_nat j)%nat →
                               String.get k' alphabet ≠ Some c)).
Proof.
  rewrite decodeCode_chars. split; [by rewrite length_map, length_chars|].
  intros k c Hk. exists (JS.indexOf alphabet c). split.
  { by rewrite list_lookup_fmap, chars_lookup, Hk. }
  destruct (decide (JS.indexOf alphabet c = -1)) as [E|Hne].
  - left. split; [done|]. by apply indexOf_absent.
  - right. unfold JS.indexOf in *.
    destruct (indexOf_from_found alphabet c 0 Hne ltac:(lia)) as [Hr Hg].
    rewrite Z.sub_0_r in Hg. split; [lia|]. split; [done|].
    intros k' Hk'. apply (indexOf_from_first alphabet c 0). lia.
Qed.

Lemma decodeCode_positions_witness :
  ∃ j, decodeCode setup_alphabet "b?" !! 1%nat = Some (Int j)
       ∧ ((j = -1 ∧ ¬ In "?"%char (chars setup_alphabet))
          ∨ (0 ≤ j < JS.length setup_alphabet
             ∧ String.get (Z.to_nat j) setup_alphabet = Some "?"%char
             ∧ ∀ k' : nat, (k' < Z.to_nat j)%nat →
                           String.get k' setup_alphabet ≠ Some "?"%char)).
Proof.
  apply (proj2 (decodeCode_positions setup_alphabet "b?") 1%nat "?"%char).
  reflexivity.
Defined.

(** X10. In a session with a valid configuration, [expand] returns
    [undefined] on every URL whose fourth field is empty or contains a
    character that is not in the alphabet. *)
Theorem expand_foreign_code a p i shorts s urls code :
  valid_config a i → run (shortener a p i) shorts s →
  getPath urls = Some code →
  code = "" ∨ (∃ c, In c (chars code) ∧ ¬ In c (chars a)) →
  expand urls s = Returns (None, s).
Proof.
  intros [Hnd Hn Hi] Hrun Hpath Hcode.
  destruct (run_inv _ _ _ _ _ Hi Hrun) as [Ha Hp Hids Hk].
  apply expand_Returns. exists code. split; [done|]. split; [|done].
  rewrite Ha.
  destruct (urlmap s !! JS.key (decodeCode a code)) as [v|] eqn:E; [|done].
  exfalso. destruct (Hk _ (mk_is_Some _ _ E)) as (j & Hj & Hkey & _).
  unfold id_key, id_digits in Hkey.
  destruct (toDigits_range a j Hn Hj) as (ds & Hd & Hr & Hne).
  rewrite Hd, decodeCode_chars in Hkey.
  rewrite <-(map_map (JS.indexOf a) Int) in Hkey.
  apply key_inj in Hkey. destruct Hcode as [->|(c & Hc & Hnot)].
  - simpl in Hkey. congruence.
  - apply indexOf_absent in Hnot.
    assert (In (-1) ds) as Hin
      by (rewrite <-Hkey, <-Hnot; by apply in_map).
    rewrite Forall_forall in Hr. apply list_elem_of_In, Hr in Hin.
    destruct Hin. lia.
Qed.

Lemma expand_foreign_code_witness :
  expand "http://short.ly/be?" shortly2 = Returns (None, shortly2).
Proof.
  apply (expand_foreign_code setup_alphabet setup_protocol startID
           ["http://short.ly/beg"; "http://short.ly/bef"] shortly2
           "http://short.ly/be?" "be?").
  - split; [by apply (bool_decide_unpack _)|vm_compute; discriminate
            |vm_compute; discriminate].
  - apply shortly_run2.
  - reflexivity.
  - right. exists "?"%char. split; [simpl; tauto|].
    by apply (bool_decide_unpack _).
Defined.

(** X11. In a session with a valid configuration the short URL [shorten]
    returns is the protocol followed by a code that is not empty, has one
    character per digit of the identifier, and only characters of the
    alphabet. *)
Theorem shorten_code_shape a p i shorts s urll r s' :
  valid_config a i → run (shortener a p i) shorts s →
  shorten urll s = Returns (r, s') →
  ∃ code digits,
    r = p +:+ code
    ∧ toDigits a (Int (ids s)) = Returns (map Int digits)
    ∧ String.length code = List.length digits
    ∧ code ≠ ""
    ∧ ∀ c, In c (chars code) → In c (chars a).
Proof.
  intros [Hnd Hn Hi] Hrun Hsh.
  destruct (run_inv _ _ _ _ _ Hi Hrun) as [Ha Hp Hids _].
  apply shorten_Returns in Hsh as (ds' & Hd' & -> & _).
  rewrite Ha in *. rewrite Hp.
  destruct (toDigits_range a (ids s) Hn Hids) as (ds & Hd & Hr & Hne).
  rewrite Hd in Hd'. injection Hd' as <-.
  destruct (encodeDigits_in_range a ds Hr) as [Hlen Hin].
  exists (encodeDigits a (map Int ds)), ds. repeat split; try done.
  intros E. rewrite E in Hlen. destruct ds; [done|]. simpl in Hlen. lia.
Qed.

Lemma shorten_code_shape_witness :
  ∃ code digits,
    "http://short.ly/beg" = setup_protocol +:+ code
    ∧ toDigits setup_alphabet (Int (ids shortly1)) = Returns (map Int digits)
    ∧ String.length code = List.length digits
    ∧ code ≠ ""
    ∧ ∀ c, In c (chars code) → In c (chars setup_alphabet).
Proof.
  apply (shorten_code_shape setup_alphabet setup_protocol startID
           ["http://short.ly/bef"] shortly1 "https://www.cics.umass.edu"
           "http://short.ly/beg" shortly2).
  - split; [by apply (bool_decide_unpack _)|vm_compute; discriminate
            |vm_compute; discriminate].
  - apply shortly_run1.
  - by vm_compute.
Defined.

(** X12. In a session with a valid configuration, while the counter is
    below 2^53, the counter is at least the starting identifier plus the
    number of calls of [shorten] that returned (calls of [nextid] advance
    it too), the registry has one entry per such call, and the short URLs
    returned are pairwise different. *)
Theorem run_counts a p i shorts s :
  valid_config a i → run (shortener a p i) shorts s → ids s < 2 ^ 53 →
  i + Z.of_nat (List.length shorts) ≤ ids s
  ∧ size (urlmap s) = List.length shorts
  ∧ NoDup shorts.
Proof.
  intros Hv Hrun. destruct (Hv) as [Hnd Hn Hi].
  induction Hrun as [|shorts s1 urll r s2 Hrun IH Hsh|shorts s1 urls r s2 Hrun IH Hex
                     |shorts s1 id s2 Hrun IH Hid]; intros Hlt.
  - simpl. split; [lia|]. split; [done|constructor].
  - pose proof (run_inv _ _ _ _ _ Hi Hrun) as Hinv.
    destruct (shorten_inv _ _ _ _ _ _ _ Hinv Hsh) as (_ & -> & Hids & Hmap).
    destruct Hinv as [_ _ H0 _]. rewrite Hids in Hlt.
    pose proof (increment_safe _ H0 Hlt) as Hinc. rewrite Hinc in Hids, Hlt.
    destruct (IH ltac:(lia)) as (IHids & Hsize & Hnodup).
    pose proof (run_safe _ _ _ _ _ Hi Hrun ltac:(lia)) as Hsafe.
    split; [simpl; lia|]. split.
    + rewrite Hmap, map_size_insert_None
        by (eapply next_key_fresh; [done|done|lia]).
      simpl. by rewrite Hsize.
    + apply NoDup_cons. split; [|done]. intros Hin%list_elem_of_In.
      destruct (safe_shorts _ _ _ _ _ Hsafe _ Hin) as (j & Hj & E).
      apply (inj (String.append p)) in E.
      apply id_code_inj in E; [lia|done|done|lia|lia].
  - apply expand_Returns in Hex as (? & _ & _ & ->). by apply IH.
  - pose proof (run_inv _ _ _ _ _ Hi Hrun) as [_ _ H0 _].
    apply nextid_Returns in Hid as [-> ->]. simpl in *.
    pose proof (increment_safe _ H0 Hlt) as Hinc. rewrite Hinc in *.
    destruct (IH ltac:(lia)) as (IHids & Hsize & Hnodup).
    split; [lia|done].
Qed.

Lemma run_counts_witness :
  startID + Z.of_nat (List.length ["http://short.ly/beg"; "http://short.ly/bef"])
  ≤ ids shortly2
  ∧ size (urlmap shortly2)
    = List.length ["http://short.ly/beg"; "http://short.ly/bef"]
  ∧ NoDup ["http://short.ly/beg"; "http://short.ly/bef"].
Proof.
  apply (run_counts setup_alphabet setup_protocol startID
           ["http://short.ly/beg"; "http://short.ly/bef"] shortly2).
  - split; [by apply (bool_decide_unpack _)|vm_compute; discriminate
            |vm_compute; discriminate].
  - apply shortly_run2.
  - reflexivity.
Defined.

(** X13. [shorten] either returns or throws a [RangeError], and it throws
    exactly when the counter is positive and the alphabet has at most one
    character: the loop of [toDigits] then never leaves. *)
Theorem shorten_outcome urll s :
  (shorten urll s = Throws RangeError ↔
   0 < ids s ∧ JS.length (alphabet s) ≤ 1)
  ∧ ((∃ r s', shorten urll s = Returns (r, s'))
     ∨ shorten urll s = Throws RangeError).
Proof.
  split.
  - rewrite shorten_Throws, toDigits_RangeError_iff. split.
    + intros [?|(z & [= <-] & ? & ?)]; done.
    + intros [? ?]. right. by exists (ids s).
  - destruct (toDigits_outcome (alphabet s) (Int (ids s))) as [[ds E]|E].
    + left. eexists _, _. apply shorten_Returns. by exists ds.
    + right. by apply shorten_Throws.
Qed.

Lemma shorten_outcome_witness :
  shorten "http://www.google.com" (shortener "a" setup_protocol 1)
  = Throws RangeError.
Proof.
  apply (proj2 (proj1 (shorten_outcome "http://www.google.com"
                         (shortener "a" setup_protocol 1)))).
  split; vm_compute; [reflexivity|discriminate].
Defined.

(** X14. With a negative counter, not below -2^53, and a non-empty
    alphabet, [shorten] stores the long URL under the decimal numeral of
    [ids % radix], advances the counter by one and returns the protocol
    followed by nothing, or by the first character of the alphabet when the
    remainder is zero; negative counters that differ by the radix use the
    same key. *)
Theorem shorten_negative urll s :
  1 ≤ JS.length (alphabet s) → - 2 ^ 53 ≤ ids s < 0 →
  shorten urll s
  = Returns
      (protocol s
       +:+ (if Z.rem (ids s) (JS.length (alphabet s)) =? 0
            then JS.charAtZ (alphabet s) 0 else ""),
       Session (alphabet s) (protocol s) (ids s + 1)
         (<[pretty (Z.rem (ids s) (JS.length (alphabet s))) := urll]>
            (urlmap s)))
  ∧ id_key (alphabet s) (ids s - JS.length (alphabet s))
    = id_key (alphabet s) (ids s).
Proof.
  intros Hn Hz. split.
  - apply shorten_Returns. eexists. split; [apply toDigits_negative; lia|].
    split; [|by rewrite increment_exact by lia]. f_equal.
    unfold encodeDigits. simpl.
    pose proof (Z.rem_bound_pos_neg (ids s) (JS.length (alphabet s))
                  ltac:(lia) ltac:(lia)) as Hr.
    destruct (Z.eqb_spec (Z.rem (ids s) (JS.length (alphabet s))) 0) as [->|Hne];
      [done|].
    unfold JS.charAtZ.
    by assert ((0 <=? Z.rem (ids s) (JS.length (alphabet s))) = false) as ->
      by lia.
  - unfold id_key, id_digits. rewrite !toDigits_negative by lia.
    by rewrite rem_negative_shift by lia.
Qed.

Lemma shorten_negative_witness :
  shorten "u" (shortener setup_alphabet setup_protocol (-5))
  = Returns ("http://short.ly/",
             Session setup_alphabet setup_protocol (-4) (<["-5" := "u"]> ∅))
  ∧ id_key setup_alphabet (-67) = id_key setup_alphabet (-5).
Proof.
  apply (shorten_negative "u" (shortener setup_alphabet setup_protocol (-5)));
    [|split]; vm_compute; first [discriminate|reflexivity].
Defined.

(** X15. The test script returns, and each of the twenty-one lines it logs
    reports a check that passed. *)
Theorem tests_pass :
  ∃ lines, tests = Returns lines
           ∧ List.length lines = 21%nat
           ∧ Forall passed lines.
Proof.
  eexists. split; [by vm_compute|]. split; [done|].
  repeat (apply List.Forall_cons;
    [match goal with
     | |- passed ?line =>
         let x := eval vm_compute in
           ((fix upto_space (s : string) : string :=
               match s with
               | String c s' =>
                   if Ascii.eqb c " " then "" else String c (upto_space s')
               | EmptyString => ""
               end) line) in
         exists x; reflexivity
     end|]).
  apply List.Forall_nil.
Qed.
